(** * SyncClient: connection lifecycle and status routing

    A shallow embedding of [src/sync_client.ts].  The class keeps three
    pieces of state ([options], [urls], [statusChangeListeners]) and talks
    to three collaborators that live outside the file:

    - the connectivity oracle ([isOnline], [onlineStatusChanged]),
    - the Dexie.Syncable facade ([syncable.connect], [.disconnect],
      [.delete], [.getStatus] and the [statusChanged] event),
    - application code, which calls the public methods and holds the
      promises they return.

    Every method body and every promise continuation is a synchronous
    block of JavaScript; it is embedded as one computation in a state
    monad over [World].  What happens between two such blocks (which
    promise settles next, which callback the oracle fires) is chosen by
    the environment and is an [event]. *)

From stdpp Require Import gmap strings list fin_maps.

(** ** Values *)

(** Values found in an options bag. *)
Inductive jsval :=
| JUndefined
| JNum (n : Z)
| JStr (s : string)
| JBool (b : bool).

(** [new Error(message)], and whatever a collaborator rejects with. *)
Inductive error := Error (message : string).

(** A status listener is an opaque application callback. *)
Definition listener := nat.

(** Promises are named by the order in which they are created. *)
Definition promise := nat.

(** What a promise handed to the application settles with:
    [Fulfilled None] is [undefined], [Fulfilled (Some s)] a string. *)
Inductive settlement :=
| Fulfilled (v : option string)
| Rejected (e : error).

(** [Object.assign(target, ...sources)]: later sources win; an
    [undefined] source is skipped. *)
Definition Object_assign (target : gmap string jsval)
    (sources : list (option (gmap string jsval))) : gmap string jsval :=
  foldl (λ acc src, from_option (λ s, s ∪ acc) acc src) target sources.

Definition SYNCABLE_PROTOCOL : string := "sync_client_protocol".

Definition defaultSyncOptions : gmap string jsval :=
  {[ "pollInterval" := JNum 10000; "credentials" := JStr "omit" ]}.

(** [Array.prototype.indexOf]: position of the first match, [-1] if none. *)
Fixpoint indexOf_from (us : list string) (url : string) (i : Z) : Z :=
  match us with
  | [] => (-1)%Z
  | u :: us' => if decide (u = url) then i else indexOf_from us' url (i + 1)%Z
  end.

Definition indexOf (us : list string) (url : string) : Z := indexOf_from us url 0.

(** ** State *)

(** The fields the constructor initialises (lines 50-52). *)
Record SyncClient := {
  options : gmap string (gmap string jsval);
  urls : list string;
  (* [Some None] is a slot holding [undefined] (see [removeUrl]) *)
  statusChangeListeners : gmap string (option listener);
}.

(** Calls made on [this.syncable]. *)
Inductive syncable_call :=
| SyncableConnect (protocol url : string) (opts : option (gmap string jsval))
| SyncableDisconnect (url : string)
| SyncableDelete (url : string)
| SyncableGetStatus (url : string).

(** A collaborator promise that has not settled yet, with the
    continuation the source attached to it. *)
Inductive awaiting :=
(* [isOnline(url).then(status => ...)] of [connect]; the promise [connect] returns *)
| IsOnlineThen (url : string)
(* [syncable.connect(...).catch(...)] of [_connect]; [k = Some o] when
   [connect] chained its [.then] and returned it into promise [o],
   [k = None] when the subscription callback dropped the promise *)
| ConnectCatch (url : string) (k : option promise)
(* [syncable.disconnect(url)]; [returned] tells whether the application got it *)
| DisconnectOf (url : string) (returned : bool)
(* [syncable.delete(url)], always returned to the application *)
| DeleteOf (url : string)
(* [syncable.getStatus(url).then(...)], always returned to the application *)
| GetStatusThen (url : string).

Record World := {
  client : SyncClient;
  (* oracle side *)
  isOnline_calls : list string;
  subscriptions : list string;   (* one entry per [onlineStatusChanged(url, cb)] *)
  (* facade side *)
  syncable_calls : list syncable_call;
  (* promises *)
  pending : gmap promise awaiting;
  next_promise : promise;
  settled : gmap promise settlement;       (* seen by the application *)
  unhandled : list (promise * error);      (* rejections nobody observes *)
  (* application side *)
  listener_calls : list (listener * option string);
}.

Definition with_client (f : SyncClient → SyncClient) (w : World) : World :=
  {| client := f (client w); isOnline_calls := isOnline_calls w;
     subscriptions := subscriptions w; syncable_calls := syncable_calls w;
     pending := pending w; next_promise := next_promise w;
     settled := settled w; unhandled := unhandled w;
     listener_calls := listener_calls w |}.

Definition with_urls (f : list string → list string) : World → World :=
  with_client (λ c, {| options := options c; urls := f (urls c);
                       statusChangeListeners := statusChangeListeners c |}).

Definition with_options
    (f : gmap string (gmap string jsval) → gmap string (gmap string jsval)) :
    World → World :=
  with_client (λ c, {| options := f (options c); urls := urls c;
                       statusChangeListeners := statusChangeListeners c |}).

Definition with_listeners
    (f : gmap string (option listener) → gmap string (option listener)) :
    World → World :=
  with_client (λ c, {| options := options c; urls := urls c;
                       statusChangeListeners := f (statusChangeListeners c) |}).

Definition with_isOnline_calls (f : list string → list string) (w : World) : World :=
  {| client := client w; isOnline_calls := f (isOnline_calls w);
     subscriptions := subscriptions w; syncable_calls := syncable_calls w;
     pending := pending w; next_promise := next_promise w;
     settled := settled w; unhandled := unhandled w;
     listener_calls := listener_calls w |}.

Definition with_subscriptions (f : list string → list string) (w : World) : World :=
  {| client := client w; isOnline_calls := isOnline_calls w;
     subscriptions := f (subscriptions w); syncable_calls := syncable_calls w;
     pending := pending w; next_promise := next_promise w;
     settled := settled w; unhandled := unhandled w;
     listener_calls := listener_calls w |}.

Definition with_syncable_calls
    (f : list syncable_call → list syncable_call) (w : World) : World :=
  {| client := client w; isOnline_calls := isOnline_calls w;
     subscriptions := subscriptions w; syncable_calls := f (syncable_calls w);
     pending := pending w; next_promise := next_promise w;
     settled := settled w; unhandled := unhandled w;
     listener_calls := listener_calls w |}.

Definition with_pending
    (f : gmap promise awaiting → gmap promise awaiting) (w : World) : World :=
  {| client := client w; isOnline_calls := isOnline_calls w;
     subscriptions := subscriptions w; syncable_calls := syncable_calls w;
     pending := f (pending w); next_promise := next_promise w;
     settled := settled w; unhandled := unhandled w;
     listener_calls := listener_calls w |}.

Definition with_settled
    (f : gmap promise settlement → gmap promise settlement) (w : World) : World :=
  {| client := client w; isOnline_calls := isOnline_calls w;
     subscriptions := subscriptions w; syncable_calls := syncable_calls w;
     pending := pending w; next_promise := next_promise w;
     settled := f (settled w); unhandled := unhandled w;
     listener_calls := listener_calls w |}.

Definition with_unhandled
    (f : list (promise * error) → list (promise * error)) (w : World) : World :=
  {| client := client w; isOnline_calls := isOnline_calls w;
     subscriptions := subscriptions w; syncable_calls := syncable_calls w;
     pending := pending w; next_promise := next_promise w;
     settled := settled w; unhandled := f (unhandled w);
     listener_calls := listener_calls w |}.

Definition with_listener_calls
    (f : list (listener * option string) → list (listener * option string))
    (w : World) : World :=
  {| client := client w; isOnline_calls := isOnline_calls w;
     subscriptions := subscriptions w; syncable_calls := syncable_calls w;
     pending := pending w; next_promise := next_promise w;
     settled := settled w; unhandled := unhandled w;
     listener_calls := f (listener_calls w) |}.

(** The world right after [new SyncClient(...)]. *)
Definition init : World :=
  {| client := {| options := ∅; urls := []; statusChangeListeners := ∅ |};
     isOnline_calls := []; subscriptions := []; syncable_calls := [];
     pending := ∅; next_promise := 0; settled := ∅; unhandled := [];
     listener_calls := [] |}.

(** ** The monad of synchronous blocks *)

Definition M (A : Type) : Type := World → A * World.

#[global] Instance M_ret : MRet M := λ A x w, (x, w).
#[global] Instance M_bind : MBind M :=
  λ A B f m w, let '(x, w') := m w in f x w'.

Definition get {A} (f : World → A) : M A := λ w, (f w, w).
Definition modify (f : World → World) : M unit := λ w, (tt, f w).
Definition exec {A} (m : M A) (w : World) : World := (m w).2.

(** A new pending promise. *)
Definition new_promise (a : awaiting) : M promise :=
  λ w, (next_promise w,
        {| client := client w; isOnline_calls := isOnline_calls w;
           subscriptions := subscriptions w; syncable_calls := syncable_calls w;
           pending := <[next_promise w := a]> (pending w);
           next_promise := S (next_promise w);
           settled := settled w; unhandled := unhandled w;
           listener_calls := listener_calls w |}).

(** [Promise.resolve()]: a new promise, already fulfilled with [undefined]. *)
Definition Promise_resolve : M promise :=
  λ w, (next_promise w,
        {| client := client w; isOnline_calls := isOnline_calls w;
           subscriptions := subscriptions w; syncable_calls := syncable_calls w;
           pending := pending w;
           next_promise := S (next_promise w);
           settled := <[next_promise w := Fulfilled None]> (settled w);
           unhandled := unhandled w;
           listener_calls := listener_calls w |}).

(** Promise [o], held by the application, settles. *)
Definition settle (o : promise) (s : settlement) : M unit :=
  modify (with_settled (insert o s)).

(** A rejection that no handler is attached to. *)
Definition drop_rejection (p : promise) (e : error) : M unit :=
  modify (with_unhandled (λ l, l ++ [(p, e)])).

(** ** Collaborators *)

Definition isOnline (url : string) : M promise :=
  modify (with_isOnline_calls (λ l, l ++ [url]));;
  new_promise (IsOnlineThen url).

Definition onlineStatusChanged (url : string) : M unit :=
  modify (with_subscriptions (λ l, l ++ [url])).

Definition syncable_connect (protocol url : string)
    (opts : option (gmap string jsval)) : M promise :=
  modify (with_syncable_calls (λ l, l ++ [SyncableConnect protocol url opts]));;
  new_promise (ConnectCatch url None).

Definition syncable_disconnect (url : string) : M promise :=
  modify (with_syncable_calls (λ l, l ++ [SyncableDisconnect url]));;
  new_promise (DisconnectOf url false).

Definition syncable_delete (url : string) : M promise :=
  modify (with_syncable_calls (λ l, l ++ [SyncableDelete url]));;
  new_promise (DeleteOf url).

Definition syncable_getStatus (url : string) : M promise :=
  modify (with_syncable_calls (λ l, l ++ [SyncableGetStatus url]));;
  new_promise (GetStatusThen url).

(** ** Methods of [SyncClient] *)

(** [disconnect(url)] (lines 110-113). *)
Definition disconnect (url : string) : M promise :=
  modify (with_urls (filter (λ u, u ≠ url)));;
  syncable_disconnect url.

(** [removeUrl(url)] (lines 115-119). *)
Definition removeUrl (url : string) : M promise :=
  modify (with_urls (filter (λ u, u ≠ url)));;
  modify (with_listeners (<[url := None]>));;
  syncable_delete url.

(** [statusChange(url, cb)] (lines 121-123). *)
Definition statusChange (url : string) (cb : option listener) : M unit :=
  modify (with_listeners (<[url := cb]>)).

(** [_connect(url, options)] (lines 66-73): the facade call; the
    [.catch] handler attached to it is [_connect_catch]. *)
Definition _connect (url : string) (opts : option (gmap string jsval)) : M promise :=
  syncable_connect SYNCABLE_PROTOCOL url opts.

(** [(e) => { this.disconnect(url); throw e; }]: the promise of the
    inner [disconnect] is dropped, the value returned here is rethrown. *)
Definition _connect_catch (url : string) (e : error) : M error :=
  _ ← disconnect url;
  mret e.

(** [connect(url, options)] (lines 79-108), up to the first suspension. *)
Definition connect (url : string) (opts : option (gmap string jsval)) : M promise :=
  us ← get (λ w, urls (client w));
  if decide (indexOf us url = (-1)%Z) then
    modify (with_options
              (<[url := Object_assign ∅ [opts; Some defaultSyncOptions]]>));;
    isOnline url
  else
    Promise_resolve.

(** [.then(() => { this.urls.push(url); onlineStatusChanged(url, ...) })]
    (lines 90-102); [o] is the promise [connect] returned. *)
Definition connect_then (o : promise) (url : string) : M unit :=
  modify (with_urls (λ us, us ++ [url]));;
  onlineStatusChanged url;;
  settle o (Fulfilled None).

(** [.then((status) => { if (status) {...} return Promise.reject(...) })]
    (lines 87-105). *)
Definition isOnline_then (o : promise) (url : string) (status : bool) : M unit :=
  if status then
    opts ← get (λ w, options (client w) !! url);
    p ← _connect url opts;
    (* [.then(...)] of line 90 is chained on [p] and returned into [o] *)
    modify (with_pending (<[p := ConnectCatch url (Some o)]>))
  else
    settle o (Rejected (Error "Is not online")).

(** The callback given to [onlineStatusChanged] (lines 95-101); both
    promises are dropped. *)
Definition onlineStatusChanged_callback (url : string) (newStatus : bool) : M unit :=
  if newStatus then
    opts ← get (λ w, options (client w) !! url);
    _ ← _connect url opts;
    mret tt
  else
    _ ← disconnect url;
    mret tt.

Section StatusTexts.

(** [Dexie.Syncable.StatusTexts]: the facade's table from status codes
    to texts; a code outside the table reads as [undefined]. *)
Variable StatusTexts : Z → option string.

(** The [statusChanged] handler installed by the constructor (lines 54-59). *)
Definition statusChanged (status : Z) (url : string) : M unit :=
  cb ← get (λ w, statusChangeListeners (client w) !! url);
  match cb with
  | Some (Some l) =>
      modify (with_listener_calls (λ c, c ++ [(l, StatusTexts status)]))
  | _ => mret tt
  end.

(** [getStatus(url)] (lines 142-148): the facade call; its [.then]
    is [getStatus_then]. *)
Definition getStatus (url : string) : M promise :=
  syncable_getStatus url.

Definition getStatus_then (status : Z) : option string := StatusTexts status.

(** ** Events *)

(** What a collaborator promise settles with. *)
Inductive reply :=
| ReplyVoid
| ReplyBool (b : bool)
| ReplyStatus (status : Z)
| ReplyError (e : error).

Inductive event :=
(* application code calls a public method *)
| App_connect (url : string) (opts : option (gmap string jsval))
| App_disconnect (url : string)
| App_removeUrl (url : string)
| App_statusChange (url : string) (cb : option listener)
| App_getStatus (url : string)
(* a pending collaborator promise settles and its continuation runs *)
| Settle (p : promise) (r : reply)
(* the oracle invokes the [i]-th callback registered with it *)
| Oracle_notifies (i : nat) (newStatus : bool)
(* the facade emits [statusChanged] *)
| Syncable_statusChanged (status : Z) (url : string).

(** The application keeps the promise of a [disconnect] it called. *)
Definition returned_to_app (p : promise) : M unit :=
  modify (with_pending
            (alter (λ a, match a with
                         | DisconnectOf url _ => DisconnectOf url true
                         | _ => a
                         end) p)).

(** The continuation attached to [p], run on reply [r]; [None] when
    the collaborator cannot settle that promise with such a reply. *)
Definition continuation (p : promise) (a : awaiting) (r : reply) : option (M unit) :=
  match a, r with
  | IsOnlineThen url, ReplyBool status => Some (isOnline_then p url status)
  | IsOnlineThen url, ReplyError e => Some (settle p (Rejected e))
  | ConnectCatch url (Some o), ReplyVoid => Some (connect_then o url)
  | ConnectCatch url None, ReplyVoid => Some (mret tt)
  | ConnectCatch url k, ReplyError e =>
      Some (e' ← _connect_catch url e;
            match k with
            | Some o => settle o (Rejected e')
            | None => drop_rejection p e'
            end)
  | DisconnectOf url true, ReplyVoid => Some (settle p (Fulfilled None))
  | DisconnectOf url true, ReplyError e => Some (settle p (Rejected e))
  | DisconnectOf url false, ReplyVoid => Some (mret tt)
  | DisconnectOf url false, ReplyError e => Some (drop_rejection p e)
  | DeleteOf url, ReplyVoid => Some (settle p (Fulfilled None))
  | DeleteOf url, ReplyError e => Some (settle p (Rejected e))
  | GetStatusThen url, ReplyStatus status =>
      Some (settle p (Fulfilled (getStatus_then status)))
  | GetStatusThen url, ReplyError e => Some (settle p (Rejected e))
  | _, _ => None
  end.

Definition step (w : World) (ev : event) : World :=
  match ev with
  | App_connect url opts => exec (connect url opts) w
  | App_disconnect url => exec (p ← disconnect url; returned_to_app p) w
  | App_removeUrl url => exec (removeUrl url) w
  | App_statusChange url cb => exec (statusChange url cb) w
  | App_getStatus url => exec (getStatus url) w
  | Settle p r =>
      match pending w !! p with
      | Some a =>
          match continuation p a r with
          | Some k => exec k (with_pending (delete p) w)
          | None => w
          end
      | None => w
      end
  | Oracle_notifies i newStatus =>
      match subscriptions w !! i with
      | Some url => exec (onlineStatusChanged_callback url newStatus) w
      | None => w
      end
  | Syncable_statusChanged status url => exec (statusChanged status url) w
  end.

Definition run (w : World) (evs : list event) : World := foldl step w evs.

End StatusTexts.

(** ** Traces: what has happened to an endpoint *)

(** Event [ev], taken in world [w], is the successful end of a
    [connect(E)] call: the protocol connect it started resolves and
    the [.then] of lines 90-102 runs. *)
Definition connect_completes (w : World) (ev : event) (E : string) : bool :=
  match ev with
  | Settle p ReplyVoid =>
      match pending w !! p with
      | Some (ConnectCatch url (Some _)) => bool_decide (url = E)
      | _ => false
      end
  | _ => false
  end.

(** Event [ev], taken in world [w], runs [disconnect(E)] or
    [removeUrl(E)]: called by the application, by the [.catch] of
    [_connect], or by the subscription callback on [false]. *)
Definition disconnects (w : World) (ev : event) (E : string) : bool :=
  match ev with
  | App_disconnect url | App_removeUrl url => bool_decide (url = E)
  | Settle p (ReplyError _) =>
      match pending w !! p with
      | Some (ConnectCatch url _) => bool_decide (url = E)
      | _ => false
      end
  | Oracle_notifies i false => bool_decide (subscriptions w !! i = Some E)
  | _ => false
  end.

(** A [connect(E)] call has completed successfully and no
    [disconnect(E)] or [removeUrl(E)] has run since. *)
Definition connected_since (StatusTexts : Z → option string)
    (evs : list event) (E : string) : Prop :=
  ∃ pre ev post,
    evs = pre ++ ev :: post ∧
    connect_completes (run StatusTexts init pre) ev E = true ∧
    ∀ post1 ev' post2,
      post = post1 ++ ev' :: post2 →
      disconnects (run StatusTexts init (pre ++ ev :: post1)) ev' E = false.

(** How many [connect(E)] calls complete successfully along a trace. *)
Fixpoint completions (StatusTexts : Z → option string)
    (w : World) (evs : list event) (E : string) : nat :=
  match evs with
  | [] => 0
  | ev :: evs' =>
      (if connect_completes w ev E then 1 else 0)
      + completions StatusTexts (step StatusTexts w ev) evs' E
  end.

(** How many [connect(E)] calls have completed successfully since the
    last [disconnect(E)] or [removeUrl(E)], starting from [n]. *)
Fixpoint tracked_copies (StatusTexts : Z → option string)
    (w : World) (evs : list event) (E : string) (n : nat) : nat :=
  match evs with
  | [] => n
  | ev :: evs' =>
      tracked_copies StatusTexts (step StatusTexts w ev) evs' E
        (if disconnects w ev E then 0
         else if connect_completes w ev E then S n else n)
  end.

(** Occurrences of [E] in a list of endpoints. *)
Definition occurrences (E : string) (l : list string) : nat :=
  length (filter (λ u, u = E) l).

(** ** Sample data for the scenarios *)

(** A table with the texts of two status codes. *)
Definition sample_texts (status : Z) : option string :=
  if decide (status = 0%Z) then Some "OFFLINE"
  else if decide (status = 2%Z) then Some "ONLINE"
  else None.

Definition db1 : string := "https://sync.example/db1".

Definition caller_options : gmap string jsval :=
  {[ "pollInterval" := JNum 500; "credentials" := JStr "include";
     "table" := JStr "notes" ]}.

(** [connect(db1)] with a reachable oracle and a protocol connect that
    resolves: promise 0 is [connect]'s, promise 1 the facade's. *)
Definition connected_once : list event :=
  [App_connect db1 None; Settle 0 (ReplyBool true); Settle 1 ReplyVoid].

(** Two overlapping [connect(db1)] calls, both answered reachable. *)
Definition overlapping_connects : list event :=
  [App_connect db1 None; App_connect db1 None;
   Settle 0 (ReplyBool true); Settle 1 (ReplyBool true)].

(** Both overlapping calls see their protocol connect resolve. *)
Definition both_connects_resolve : list event :=
  overlapping_connects ++ [Settle 2 ReplyVoid; Settle 3 ReplyVoid].

(** After [connected_once] the oracle reports [db1] unreachable, then
    reachable again; promise 2 is the dropped [disconnect], promise 3
    the reconnect started by the callback. *)
Definition flip_off_and_on : list event :=
  connected_once ++ [Oracle_notifies 0 false; Oracle_notifies 0 true].

(** After [connected_once] the application disconnects and connects
    again: promise 2 is [disconnect]'s, 3 is [connect]'s, 4 the
    facade's. *)
Definition disconnect_then_connect : list event :=
  connected_once
    ++ [App_disconnect db1; Settle 2 ReplyVoid; App_connect db1 None;
        Settle 3 (ReplyBool true); Settle 4 ReplyVoid].

(** The facade reports status 2 for [db1]; later the application asks
    for the status and the facade's [getStatus] answers 0. *)
Definition event_then_getStatus : list event :=
  [Syncable_statusChanged 2 db1; App_getStatus db1; Settle 0 (ReplyStatus 0)].

(** Two overlapping [connect(db1)] calls; the protocol connect of the
    first (promise 2) has resolved, that of the second (promise 3) is
    still pending. *)
Definition first_resolves_second_pending : list event :=
  overlapping_connects ++ [Settle 2 ReplyVoid].

(** ** Invariants of the promise bookkeeping and of the stored options *)

(** Promise names are handed out in order; a promise is pending or
    settled, never both; the promise of a [connect] call that waits
    for its protocol connect is itself neither, and only one protocol
    connect settles it. *)
Record wf (w : World) : Prop := {
  wf_pending : ∀ p a, pending w !! p = Some a → p < next_promise w;
  wf_settled : ∀ p s, settled w !! p = Some s → p < next_promise w;
  wf_disjoint : ∀ p a, pending w !! p = Some a → settled w !! p = None;
  wf_chain : ∀ p url o,
    pending w !! p = Some (ConnectCatch url (Some o)) →
    o < next_promise w ∧ pending w !! o = None ∧ settled w !! o = None;
  wf_chain_inj : ∀ p p' url url' o,
    pending w !! p = Some (ConnectCatch url (Some o)) →
    pending w !! p' = Some (ConnectCatch url' (Some o)) → p = p';
}.

(** An options bag that holds the two defaults. *)
Definition has_defaults (bag : gmap string jsval) : Prop :=
  bag !! "pollInterval" = Some (JNum 10000) ∧
  bag !! "credentials" = Some (JStr "omit").

(** Every stored bag holds the defaults, and a bag is stored for every
    endpoint that a pending promise or a subscription may connect. *)
Record options_inv (w : World) : Prop := {
  inv_defaults : ∀ url bag,
    options (client w) !! url = Some bag → has_defaults bag;
  inv_query : ∀ p url,
    pending w !! p = Some (IsOnlineThen url) →
    is_Some (options (client w) !! url);
  inv_connect : ∀ p url k,
    pending w !! p = Some (ConnectCatch url k) →
    is_Some (options (client w) !! url);
  inv_subscribed : ∀ url,
    url ∈ subscriptions w → is_Some (options (client w) !! url);
  inv_calls : ∀ proto url o,
    SyncableConnect proto url o ∈ syncable_calls w →
    proto = SYNCABLE_PROTOCOL ∧ ∃ bag, o = Some bag ∧ has_defaults bag;
}.

(** ** Listener calls along a trace *)

(** The listener slot of [u] as the handler reads it: [None] when the
    slot is missing or holds [undefined]. *)
Definition registry (w : World) (u : string) : option listener :=
  mjoin (statusChangeListeners (client w) !! u).

(** What event [ev] does to the listener slots. *)
Definition register (ev : event) (reg : string → option listener) :
    string → option listener :=
  match ev with
  | App_statusChange url cb => λ u, if bool_decide (u = url) then cb else reg u
  | App_removeUrl url => λ u, if bool_decide (u = url) then None else reg u
  | _ => reg
  end.

(** The listener call event [ev] causes, given the slots. *)
Definition notified (StatusTexts : Z → option string) (ev : event)
    (reg : string → option listener) : list (listener * option string) :=
  match ev with
  | Syncable_statusChanged status url =>
      match reg url with
      | Some l => [(l, StatusTexts status)]
      | None => []
      end
  | _ => []
  end.

(** The listener calls a trace causes, starting from slots [reg]. *)
Fixpoint expected_calls (StatusTexts : Z → option string)
    (evs : list event) (reg : string → option listener) :
    list (listener * option string) :=
  match evs with
  | [] => []
  | ev :: evs' =>
      notified StatusTexts ev reg
        ++ expected_calls StatusTexts evs' (register ev reg)
  end.

(** ** The endpoint an event is about *)

Definition awaited_url (a : awaiting) : string :=
  match a with
  | IsOnlineThen url | ConnectCatch url _ | DisconnectOf url _
  | DeleteOf url | GetStatusThen url => url
  end.

(** The endpoint of a call or a status event is its argument; that of
    a settling promise or a firing callback is the [url] its closure
    captured.  [None] when the event finds nothing to run. *)
Definition endpoint_of (w : World) (ev : event) : option string :=
  match ev with
  | App_connect url _ | App_disconnect url | App_removeUrl url
  | App_statusChange url _ | App_getStatus url
  | Syncable_statusChanged _ url => Some url
  | Settle p _ => awaited_url <$> pending w !! p
  | Oracle_notifies i _ => subscriptions w !! i
  end.

Definition db2 : string := "https://sync.example/db2".

(** [connect(db1)] up to the start of the protocol connect (promise 1). *)
Definition connecting : list event :=
  [App_connect db1 None; Settle 0 (ReplyBool true)].

(** ** [getStatuses]

    [getStatuses] (lines 128-140) reads no field of the client and
    writes none; it only talks to the facade.  It is embedded on a
    state of its own: the calls made on the facade, the promises in
    flight and the results handed to the application. *)

(** One [{url, status}] record of the result. *)
Record status_entry := { entry_url : string; entry_status : option string }.

(** What the promise returned by [getStatuses] settles with. *)
Inductive listing :=
| Listed (entries : list status_entry)
| ListingRejected (e : error).

Inductive facade_call :=
| Facade_list
| Facade_getStatus (url : string).

(** Where a [getStatuses] call stands. *)
Inductive gathering :=
(* [syncable.list().then(...)] has not run yet *)
| ListThen
(* [Promise.all(promises).then(...)]: slot [i] holds the status the
   [i]-th promise fulfilled with, [None] while it is pending *)
| AllThen (urls : list string) (statuses : list (option Z)).

Record Lister := {
  facade_calls : list facade_call;
  gathers : gmap promise gathering;   (* by the promise [getStatuses] returned *)
  (* a pending [syncable.getStatus(url)] of line 132, with the
     [getStatuses] promise it belongs to and its index in the array *)
  elements : gmap promise (promise * nat);
  lister_next : promise;
  listed : gmap promise listing;      (* seen by the application *)
}.

Definition lister_init : Lister :=
  {| facade_calls := []; gathers := ∅; elements := ∅; lister_next := 0;
     listed := ∅ |}.

(** [getStatuses()] up to its first suspension: [this.syncable.list()]. *)
Definition getStatuses (l : Lister) : promise * Lister :=
  (lister_next l,
   {| facade_calls := facade_calls l ++ [Facade_list];
      gathers := <[lister_next l := ListThen]> (gathers l);
      elements := elements l;
      lister_next := S (lister_next l);
      listed := listed l |}).

(** [urls.map((url) => this.syncable.getStatus(url))] (line 132), for
    the call whose promise is [P], from array index [index] on. *)
Fixpoint getStatus_each (P : promise) (urls : list string) (index : nat)
    (l : Lister) : Lister :=
  match urls with
  | [] => l
  | url :: urls' =>
      getStatus_each P urls' (S index)
        {| facade_calls := facade_calls l ++ [Facade_getStatus url];
           gathers := gathers l;
           elements := <[lister_next l := (P, index)]> (elements l);
           lister_next := S (lister_next l);
           listed := listed l |}
  end.

(** [urls.map((url, index) => ({url, status: StatusTexts[statuses[index]]}))]
    (lines 134-137). *)
Definition status_entries (StatusTexts : Z → option string)
    (urls : list string) (statuses : list Z) : list status_entry :=
  imap (λ index url,
          {| entry_url := url;
             entry_status := statuses !! index ≫= StatusTexts |}) urls.

(** The promise [P] returned by [getStatuses] settles. *)
Definition settle_listing (P : promise) (r : listing) (l : Lister) : Lister :=
  {| facade_calls := facade_calls l;
     gathers := delete P (gathers l);
     elements := elements l;
     lister_next := lister_next l;
     listed := <[P := r]> (listed l) |}.

(** [Promise.all(promises).then(...)]: once every slot is filled the
    [.then] maps the statuses to records; until then the slots are kept. *)
Definition all_then (StatusTexts : Z → option string) (P : promise)
    (urls : list string) (slots : list (option Z)) (l : Lister) : Lister :=
  match mapM id slots with
  | Some statuses =>
      settle_listing P (Listed (status_entries StatusTexts urls statuses)) l
  | None =>
      {| facade_calls := facade_calls l;
         gathers := <[P := AllThen urls slots]> (gathers l);
         elements := elements l;
         lister_next := lister_next l;
         listed := listed l |}
  end.

(** [.then((urls) => { ... })] of line 131. *)
Definition list_then (StatusTexts : Z → option string) (P : promise)
    (urls : list string) (l : Lister) : Lister :=
  all_then StatusTexts P urls (replicate (length urls) None)
    (getStatus_each P urls 0 l).

Definition forget_element (q : promise) (l : Lister) : Lister :=
  {| facade_calls := facade_calls l;
     gathers := gathers l;
     elements := delete q (elements l);
     lister_next := lister_next l;
     listed := listed l |}.

Inductive lister_event :=
| App_getStatuses
| List_resolves (P : promise) (urls : list string)
| List_rejects (P : promise) (e : error)
| Status_resolves (q : promise) (status : Z)
| Status_rejects (q : promise) (e : error).

(** A rejected element rejects the [Promise.all] it belongs to if that
    is still pending; settlements that arrive after are ignored. *)
Definition lister_step (StatusTexts : Z → option string)
    (l : Lister) (ev : lister_event) : Lister :=
  match ev with
  | App_getStatuses => (getStatuses l).2
  | List_resolves P urls =>
      match gathers l !! P with
      | Some ListThen => list_then StatusTexts P urls l
      | _ => l
      end
  | List_rejects P e =>
      match gathers l !! P with
      | Some ListThen => settle_listing P (ListingRejected e) l
      | _ => l
      end
  | Status_resolves q status =>
      match elements l !! q with
      | Some (P, index) =>
          match gathers l !! P with
          | Some (AllThen urls slots) =>
              all_then StatusTexts P urls (<[index := Some status]> slots)
                (forget_element q l)
          | _ => forget_element q l
          end
      | None => l
      end
  | Status_rejects q e =>
      match elements l !! q with
      | Some (P, index) =>
          match gathers l !! P with
          | Some (AllThen urls slots) =>
              settle_listing P (ListingRejected e) (forget_element q l)
          | _ => forget_element q l
          end
      | None => l
      end
  end.

Definition lister_run (StatusTexts : Z → option string)
    (l : Lister) (evs : list lister_event) : Lister :=
  foldl (lister_step StatusTexts) l evs.

(** The slots of a [Promise.all] over [urls] once the promises with
    index in [done] have fulfilled, promise [i] with [answer i]. *)
Definition slots_of (urls : list string) (answer : nat → Z)
    (done : list nat) : list (option Z) :=
  (λ i, if bool_decide (i ∈ done) then Some (answer i) else None)
    <$> seq 0 (length urls).

(** The result when promise [i] fulfils with [answer i]. *)
Definition answered (StatusTexts : Z → option string)
    (urls : list string) (answer : nat → Z) : list status_entry :=
  imap (λ i url, {| entry_url := url; entry_status := StatusTexts (answer i) |})
    urls.

(** Where the call with promise [P] stands when exactly the element
    promises with index in [done] have fulfilled; [first] is the
    promise of element 0. *)
Record gathering_inv (StatusTexts : Z → option string) (P first : promise)
    (urls : list string) (answer : nat → Z) (done : list nat)
    (l : Lister) : Prop := {
  inv_elements : ∀ i, i < length urls → i ∉ done →
                      elements l !! (first + i : promise) = Some (P, i);
  inv_gathers : (∃ i, i < length urls ∧ i ∉ done) →
                gathers l !! P = Some (AllThen urls (slots_of urls answer done));
  inv_listed : (∀ i, i < length urls → i ∈ done) →
               listed l !! P = Some (Listed (answered StatusTexts urls answer));
}.

Definition sample_answer (i : nat) : Z := if decide (i = 0) then 0%Z else 2%Z.

(** ** The constructor (lines 34-60) *)

Inductive addon := observable | syncable | Addon (name : string).

(** One element of [dbVersions]; [upgrader] is [None] when absent. *)
Record dbVersion := {
  version : Z;
  stores : gmap string string;
  upgrader : option string;
}.

Record SyncClientOptions := {
  addons : option (list addon);
  partialsThreshold : option jsval;
}.

(** Calls the constructor makes on Dexie and on Dexie.Syncable. *)
Inductive dexie_call :=
| Dexie_new (dbName : string) (loaded : list addon)   (* [super(dbName, {addons})] *)
| Dexie_version (n : Z)                               (* [this.version(n)] *)
| Version_stores (schema : gmap string string)        (* [.stores(schema)] *)
| Version_upgrade (f : string)                        (* [.upgrade(f)] *)
| Syncable_registerSyncProtocol (name : string) (threshold : option jsval)
| Syncable_on (eventName : string).

(** The body of the [forEach] (lines 37-41). *)
Definition declare_version (v : dbVersion) : list dexie_call :=
  match upgrader v with
  | Some f =>
      [Dexie_version (version v); Version_stores (stores v); Version_upgrade f]
  | None => [Dexie_version (version v); Version_stores (stores v)]
  end.

(** The calls made, in order, and the fields of the new client. *)
Definition constructor (dbName : string) (dbVersions : list dbVersion)
    (opts : SyncClientOptions) : list dexie_call * SyncClient :=
  let created :=
    [Dexie_new dbName ([observable; syncable] ++ default [] (addons opts))] in
  let declared :=
    foldl (λ calls v, calls ++ declare_version v) created dbVersions in
  (declared
     ++ [Syncable_registerSyncProtocol SYNCABLE_PROTOCOL (partialsThreshold opts);
         Syncable_on "statusChanged"],
   {| options := ∅; urls := []; statusChangeListeners := ∅ |}).

Definition declared_version (c : dexie_call) : option Z :=
  match c with Dexie_version n => Some n | _ => None end.

Definition declared_stores (c : dexie_call) : option (gmap string string) :=
  match c with Version_stores s => Some s | _ => None end.

Definition declared_upgrade (c : dexie_call) : option string :=
  match c with Version_upgrade f => Some f | _ => None end.

(** ** What writes the options and what queries the oracle *)

(** The bag event [ev] stores for [E]: only a [connect(E, opts)] taken
    while [E] is not in [urls] stores one. *)
Definition writes_options (w : World) (ev : event) (E : string) :
    option (gmap string jsval) :=
  match ev with
  | App_connect url opts =>
      if bool_decide (url = E ∧ E ∉ urls (client w))
      then Some (Object_assign ∅ [opts; Some defaultSyncOptions])
      else None
  | _ => None
  end.

(** The bag stored for [E] after a trace, starting from [cur]. *)
Fixpoint stored_options (StatusTexts : Z → option string) (w : World)
    (evs : list event) (E : string) (cur : option (gmap string jsval)) :
    option (gmap string jsval) :=
  match evs with
  | [] => cur
  | ev :: evs' =>
      stored_options StatusTexts (step StatusTexts w ev) evs' E
        (match writes_options w ev E with
         | Some bag => Some bag
         | None => cur
         end)
  end.

(** The [isOnline] query event [ev] makes. *)
Definition queries (w : World) (ev : event) : list string :=
  match ev with
  | App_connect url _ => if bool_decide (url ∈ urls (client w)) then [] else [url]
  | _ => []
  end.

Fixpoint expected_queries (StatusTexts : Z → option string) (w : World)
    (evs : list event) : list string :=
  match evs with
  | [] => []
  | ev :: evs' =>
      queries w ev ++ expected_queries StatusTexts (step StatusTexts w ev) evs'
  end.

(** Membership goals over [filter], [++] and [bool_decide]. *)
Ltac membership :=
  repeat first
    [ rewrite list_elem_of_filter
    | rewrite elem_of_app
    | rewrite list_elem_of_singleton
    | rewrite bool_decide_eq_true
    | rewrite bool_decide_eq_false ];
  intuition congruence.

(** Counting goals over [occurrences]. *)
Create Rewrite HintDb occurrences.

Ltac copies :=
  autorewrite with occurrences;
  repeat case_bool_decide; try congruence; try lia.

(** ** Basic facts *)

Lemma indexOf_from_absent us url i :
  (0 ≤ i)%Z → indexOf_from us url i = (-1)%Z ↔ url ∉ us.
Proof.
  revert i. induction us as [|u us IH]; intros i Hi; simpl.
  - split; [intros _; apply not_elem_of_nil | done].
  - destruct (decide (u = url)) as [->|Hne].
    + split; [lia | intros Hn; exfalso; apply Hn; left].
    + rewrite IH by lia. rewrite not_elem_of_cons. intuition congruence.
Qed.

Lemma indexOf_absent us url : indexOf us url = (-1)%Z ↔ url ∉ us.
Proof. apply indexOf_from_absent. lia. Qed.

Lemma connect_tracked url opts w :
  url ∈ urls (client w) → connect url opts w = Promise_resolve w.
Proof.
  intros Hin. unfold connect, mbind, M_bind, get.
  destruct (decide _) as [Hidx|_]; [|done].
  by apply indexOf_absent in Hidx.
Qed.

Lemma connect_untracked url opts w :
  url ∉ urls (client w) →
  connect url opts w =
    isOnline url
      (with_options (<[url := Object_assign ∅ [opts; Some defaultSyncOptions]]>) w).
Proof.
  intros Hout. unfold connect, mbind, M_bind, get.
  destruct (decide _) as [_|Hidx]; [done|].
  by apply indexOf_absent in Hout.
Qed.

Lemma step_connect_untracked StatusTexts w url opts :
  url ∉ urls (client w) →
  let w' := step StatusTexts w (App_connect url opts) in
  isOnline_calls w' = isOnline_calls w ++ [url] ∧
  pending w' = <[next_promise w := IsOnlineThen url]> (pending w) ∧
  next_promise w' = S (next_promise w) ∧
  urls (client w') = urls (client w) ∧
  options (client w') =
    <[url := Object_assign ∅ [opts; Some defaultSyncOptions]]>
      (options (client w)) ∧
  syncable_calls w' = syncable_calls w ∧
  subscriptions w' = subscriptions w.
Proof.
  intros Hout. cbv zeta. unfold step, exec.
  rewrite connect_untracked by done. done.
Qed.

Lemma step_connect_tracked StatusTexts w url opts :
  url ∈ urls (client w) →
  let w' := step StatusTexts w (App_connect url opts) in
  client w' = client w ∧
  isOnline_calls w' = isOnline_calls w ∧
  subscriptions w' = subscriptions w ∧
  syncable_calls w' = syncable_calls w ∧
  pending w' = pending w ∧
  settled w' = <[next_promise w := Fulfilled None]> (settled w).
Proof.
  intros Hin. cbv zeta. unfold step, exec.
  rewrite connect_tracked by done. done.
Qed.

(** ** Options stored by [connect] *)

Lemma Object_assign_defaults (opts : option (gmap string jsval)) :
  Object_assign ∅ [opts; Some defaultSyncOptions]
  = defaultSyncOptions ∪ default ∅ opts.
Proof.
  unfold Object_assign. destruct opts as [o|]; simpl.
  - by rewrite (right_id_L ∅ (∪) o).
  - done.
Qed.

(** C3. On a [connect(url, opts)] for an endpoint that is not tracked,
    the options stored for [url] are [Object.assign({}, opts,
    defaultSyncOptions)]: [pollInterval] is 10000 and [credentials] is
    "omit" whatever the caller passed for them, and every other key
    reads as in the caller's bag. *)
Theorem connect_stores_defaults_last
    (StatusTexts : Z → option string) (w : World) (url : string)
    (opts : option (gmap string jsval)) :
  url ∉ urls (client w) →
  ∃ stored,
    options (client (step StatusTexts w (App_connect url opts))) !! url
      = Some stored ∧
    stored = Object_assign ∅ [opts; Some defaultSyncOptions] ∧
    stored !! "pollInterval" = Some (JNum 10000) ∧
    stored !! "credentials" = Some (JStr "omit") ∧
    ∀ key, key ≠ "pollInterval" → key ≠ "credentials" →
           stored !! key = opts ≫= (λ o, o !! key).
Proof.
  intros Hout. eexists. split; [|split; [reflexivity|]].
  - unfold step, exec. rewrite connect_untracked by done.
    simpl. apply lookup_insert_eq.
  - rewrite Object_assign_defaults. repeat split.
    + apply lookup_union_Some_l. done.
    + apply lookup_union_Some_l. done.
    + intros key H1 H2.
      assert (defaultSyncOptions !! key = None) as Hd.
      { unfold defaultSyncOptions.
        rewrite lookup_insert_ne by done.
        by rewrite lookup_singleton_ne. }
      rewrite lookup_union_r by done.
      destruct opts; simpl; [done | apply lookup_empty].
Qed.

Lemma connect_stores_defaults_last_witness :
  (db1 ∉ urls (client init)) ∧
  (∃ stored,
    options (client (step sample_texts init
                       (App_connect db1 (Some caller_options)))) !! db1
      = Some stored ∧
    stored !! "pollInterval" = Some (JNum 10000) ∧
    stored !! "credentials" = Some (JStr "omit") ∧
    stored !! "table" = Some (JStr "notes")).
Proof.
  assert (db1 ∉ urls (client init)) as Hout by apply not_elem_of_nil.
  split; [exact Hout|].
  destruct (connect_stores_defaults_last sample_texts init db1
              (Some caller_options) Hout)
    as (stored & Hs & _ & Hp & Hc & Hk).
  exists stored. repeat split; try done.
  rewrite Hk by done. reflexivity.
Defined.

(** ** [connect] on a tracked endpoint *)

(** C9. When [url] is already in [urls], [connect(url, opts)] returns
    a promise that is already fulfilled and changes nothing: the
    client's fields, the oracle's queries and subscriptions, the calls
    made on the facade and the pending promises are as before. *)
Theorem connect_tracked_is_noop
    (StatusTexts : Z → option string) (w : World) (url : string)
    (opts : option (gmap string jsval)) :
  url ∈ urls (client w) →
  let o := (connect url opts w).1 in
  let w' := step StatusTexts w (App_connect url opts) in
  settled w' !! o = Some (Fulfilled None) ∧
  client w' = client w ∧
  isOnline_calls w' = isOnline_calls w ∧
  subscriptions w' = subscriptions w ∧
  syncable_calls w' = syncable_calls w ∧
  pending w' = pending w ∧
  unhandled w' = unhandled w ∧
  listener_calls w' = listener_calls w.
Proof.
  intros Hin. unfold step, exec. rewrite connect_tracked by done.
  simpl. rewrite lookup_insert_eq. done.
Qed.

Lemma connect_tracked_is_noop_witness :
  let w := run sample_texts init connected_once in
  let w' := step sample_texts w (App_connect db1 (Some caller_options)) in
  db1 ∈ urls (client w) ∧
  settled w' !! 2 = Some (Fulfilled None) ∧
  client w' = client w ∧
  isOnline_calls w' = isOnline_calls w ∧
  syncable_calls w' = syncable_calls w.
Proof.
  assert (db1 ∈ urls (client (run sample_texts init connected_once))) as Hin.
  { vm_compute. left. }
  pose proof (connect_tracked_is_noop sample_texts _ db1
                (Some caller_options) Hin) as H.
  cbv zeta in *. split; [exact Hin|].
  destruct H as (Hs & Hc & Hq & _ & Hf & _).
  rewrite connect_tracked in Hs by exact Hin.
  repeat split; assumption.
Defined.

(** ** Settling a pending promise *)

Lemma step_settle StatusTexts w p a r k :
  pending w !! p = Some a →
  continuation StatusTexts p a r = Some k →
  step StatusTexts w (Settle p r) = exec k (with_pending (delete p) w).
Proof. intros Hp Hk. unfold step. by rewrite Hp, Hk. Qed.


(** The oracle answers "reachable" to a pending [connect]. *)
Lemma isOnline_true StatusTexts w o url :
  pending w !! o = Some (IsOnlineThen url) →
  let w' := step StatusTexts w (Settle o (ReplyBool true)) in
  syncable_calls w' =
    syncable_calls w
      ++ [SyncableConnect SYNCABLE_PROTOCOL url (options (client w) !! url)] ∧
  pending w' =
    <[next_promise w := ConnectCatch url (Some o)]> (delete o (pending w)) ∧
  next_promise w' = S (next_promise w) ∧
  client w' = client w ∧
  subscriptions w' = subscriptions w ∧
  settled w' = settled w ∧
  isOnline_calls w' = isOnline_calls w.
Proof.
  intros Hp. cbv zeta. erewrite step_settle by (exact Hp || reflexivity).
  unfold exec; simpl. by rewrite insert_insert_eq.
Qed.

(** The protocol connect started by [_connect] rejects. *)
Lemma connect_rejected StatusTexts w p url k e :
  pending w !! p = Some (ConnectCatch url k) →
  let w' := step StatusTexts w (Settle p (ReplyError e)) in
  urls (client w') = filter (λ u, u ≠ url) (urls (client w)) ∧
  options (client w') = options (client w) ∧
  statusChangeListeners (client w') = statusChangeListeners (client w) ∧
  subscriptions w' = subscriptions w ∧
  syncable_calls w' = syncable_calls w ++ [SyncableDisconnect url] ∧
  pending w' =
    <[next_promise w := DisconnectOf url false]> (delete p (pending w)) ∧
  settled w' = from_option (λ o, <[o := Rejected e]> (settled w)) (settled w) k ∧
  unhandled w' = from_option (λ _, unhandled w) (unhandled w ++ [(p, e)]) k.
Proof.
  intros Hp. cbv zeta.
  destruct k; erewrite step_settle by (exact Hp || reflexivity); done.
Qed.

(** The protocol connect started by [connect] resolves. *)
Lemma connect_resolved StatusTexts w p url o :
  pending w !! p = Some (ConnectCatch url (Some o)) →
  let w' := step StatusTexts w (Settle p ReplyVoid) in
  urls (client w') = urls (client w) ++ [url] ∧
  subscriptions w' = subscriptions w ++ [url] ∧
  syncable_calls w' = syncable_calls w ∧
  settled w' = <[o := Fulfilled None]> (settled w) ∧
  pending w' = delete p (pending w) ∧
  isOnline_calls w' = isOnline_calls w.
Proof.
  intros Hp. cbv zeta. erewrite step_settle by (exact Hp || reflexivity). done.
Qed.

(** A [disconnect] promise that the application does not hold settles. *)
Lemma dropped_disconnect_settles StatusTexts w q url r :
  pending w !! q = Some (DisconnectOf url false) →
  let w' := step StatusTexts w (Settle q r) in
  settled w' = settled w ∧ client w' = client w ∧
  syncable_calls w' = syncable_calls w.
Proof.
  intros Hq. cbv zeta. unfold step. rewrite Hq. by destruct r.
Qed.

Lemma not_elem_of_filter_ne (url : string) (us : list string) :
  url ∉ filter (λ u, u ≠ url) us.
Proof. rewrite list_elem_of_filter. tauto. Qed.

Lemma filter_ne_absent (url : string) (us : list string) :
  url ∉ us → filter (λ u, u ≠ url) us = us.
Proof.
  induction us as [|u us IH]; [done|].
  rewrite not_elem_of_cons. intros [Hne Hout].
  rewrite filter_cons_True by congruence. by rewrite IH.
Qed.

(** ** [connect] while the oracle reports the endpoint unreachable *)



(** ** A protocol connect that fails *)

(** C5 (as the code has it). When the protocol connect started by
    [_connect(url, ...)] rejects with [e], the cleanup runs
    [disconnect(url)]: [url] is not in [urls] afterwards, also when
    another [connect(url)] had tracked it in the meantime; membership
    of the other endpoints is untouched, and only if [url] was not
    tracked is the client exactly as before.
    [syncable.disconnect(url)] is called; the promise [connect]
    returned rejects with [e]; and however the cleanup [disconnect]
    settles, no promise held by the application changes. *)
Theorem failed_connect_cleans_up
    (StatusTexts : Z → option string) (w : World) (p : promise)
    (url : string) (k : option promise) (e : error) :
  pending w !! p = Some (ConnectCatch url k) →
  let q := next_promise w in
  let w1 := step StatusTexts w (Settle p (ReplyError e)) in
  (url ∉ urls (client w1)) ∧
  (∀ u, u ≠ url → u ∈ urls (client w1) ↔ u ∈ urls (client w)) ∧
  (url ∉ urls (client w) → client w1 = client w) ∧
  subscriptions w1 = subscriptions w ∧
  syncable_calls w1 = syncable_calls w ++ [SyncableDisconnect url] ∧
  (∀ o, k = Some o → settled w1 = <[o := Rejected e]> (settled w)) ∧
  pending w1 !! q = Some (DisconnectOf url false) ∧
  ∀ r, settled (step StatusTexts w1 (Settle q r)) = settled w1.
Proof.
  intros Hp. cbv zeta.
  destruct (connect_rejected StatusTexts w p url k e Hp)
    as (Hu & Ho & Hl & Hsub & Hf & Hpe & Hs & _).
  assert (pending (step StatusTexts w (Settle p (ReplyError e)))
            !! next_promise w = Some (DisconnectOf url false)) as Hq.
  { rewrite Hpe. apply lookup_insert_eq. }
  repeat split.
  - rewrite Hu. apply not_elem_of_filter_ne.
  - rewrite Hu, list_elem_of_filter. tauto.
  - rewrite Hu, list_elem_of_filter. intros Hin. split; [congruence | done].
  - intros Hout.
    destruct (client (step StatusTexts w (Settle p (ReplyError e)))) as [o1 u1 l1].
    destruct (client w) as [o0 u0 l0]. simpl in *.
    rewrite Ho, Hu, Hl. by rewrite filter_ne_absent.
  - exact Hsub.
  - exact Hf.
  - intros o ->. exact Hs.
  - exact Hq.
  - intros r. by destruct (dropped_disconnect_settles StatusTexts _ _ _ r Hq).
Qed.

Lemma failed_connect_cleans_up_witness :
  let w := run sample_texts init
             [App_connect db1 None; Settle 0 (ReplyBool true)] in
  let w1 := step sample_texts w (Settle 1 (ReplyError (Error "handshake"))) in
  pending w !! 1 = Some (ConnectCatch db1 (Some 0)) ∧
  (db1 ∉ urls (client w1)) ∧
  syncable_calls w1 = syncable_calls w ++ [SyncableDisconnect db1] ∧
  settled w1 = <[0 := Rejected (Error "handshake")]> (settled w) ∧
  settled (step sample_texts w1 (Settle 2 (ReplyError (Error "teardown"))))
    = settled w1.
Proof.
  assert (pending (run sample_texts init
                     [App_connect db1 None; Settle 0 (ReplyBool true)]) !! 1
          = Some (ConnectCatch db1 (Some 0))) as Hp by (vm_compute; reflexivity).
  destruct (failed_connect_cleans_up sample_texts _ 1 db1 (Some 0)
              (Error "handshake") Hp)
    as (Hout & _ & _ & _ & Hf & Hs & _ & Hq).
  cbv zeta. split; [exact Hp|].
  split; [exact Hout|]. split; [exact Hf|].
  split; [by apply Hs|]. apply Hq.
Defined.

(** C5 (as the spec states it) fails: with two overlapping
    [connect(db1)] calls of which the first has succeeded, [db1] is
    tracked and the first promise is fulfilled; when the protocol
    connect of the second then rejects, its cleanup takes [db1] out of
    [urls], so for tracking the system is not as if that attempt had
    never happened. *)
Lemma failed_connect_untracks_tracked_endpoint :
  let w := run sample_texts init first_resolves_second_pending in
  let w' := step sample_texts w (Settle 3 (ReplyError (Error "handshake"))) in
  urls (client w) = [db1] ∧
  settled w !! 0 = Some (Fulfilled None) ∧
  pending w !! 3 = Some (ConnectCatch db1 (Some 1)) ∧
  urls (client w') = [] ∧
  urls (client w') ≠ urls (client w) ∧
  settled w' !! 0 = Some (Fulfilled None) ∧
  settled w' !! 1 = Some (Rejected (Error "handshake")).
Proof.
  cbv zeta. split; [reflexivity|]. split; [reflexivity|].
  split; [reflexivity|]. split; [reflexivity|].
  split; [discriminate|]. split; reflexivity.
Qed.

(** ** A reconnect started by the subscription callback *)

(** C10. When a registered subscription callback is invoked with
    [true], it starts a protocol connect whose promise it drops; if
    that connect rejects with [e], the [.catch] of [_connect] still
    calls [disconnect(url)] and then the rejection reaches nobody: no
    promise held by the application changes, and [e] is an unhandled
    rejection. *)
Theorem reconnect_failure_is_dropped
    (StatusTexts : Z → option string) (w : World) (i : nat)
    (url : string) (e : error) :
  subscriptions w !! i = Some url →
  let p := next_promise w in
  let w1 := step StatusTexts w (Oracle_notifies i true) in
  let w2 := step StatusTexts w1 (Settle p (ReplyError e)) in
  pending w1 !! p = Some (ConnectCatch url None) ∧
  syncable_calls w1 =
    syncable_calls w
      ++ [SyncableConnect SYNCABLE_PROTOCOL url (options (client w) !! url)] ∧
  settled w1 = settled w ∧
  settled w2 = settled w ∧
  unhandled w2 = unhandled w ++ [(p, e)] ∧
  syncable_calls w2 = syncable_calls w1 ++ [SyncableDisconnect url] ∧
  url ∉ urls (client w2).
Proof.
  intros Hsub. cbv zeta.
  assert (step StatusTexts w (Oracle_notifies i true)
          = exec (onlineStatusChanged_callback url true) w) as Hstep.
  { unfold step. by rewrite Hsub. }
  assert (pending (step StatusTexts w (Oracle_notifies i true))
            !! next_promise w = Some (ConnectCatch url None)) as Hp.
  { rewrite Hstep. unfold exec; simpl. apply lookup_insert_eq. }
  destruct (connect_rejected StatusTexts _ _ _ _ e Hp)
    as (Hu & _ & _ & _ & Hf & _ & Hs & Hun).
  split; [exact Hp|].
  rewrite Hs, Hun, Hf, Hu. rewrite Hstep. unfold exec; simpl.
  do 5 (split; [done|]). apply not_elem_of_filter_ne.
Qed.

Lemma reconnect_failure_is_dropped_witness :
  let w := run sample_texts init connected_once in
  let w1 := step sample_texts w (Oracle_notifies 0 true) in
  let w2 := step sample_texts w1 (Settle 2 (ReplyError (Error "handshake"))) in
  subscriptions w !! 0 = Some db1 ∧
  pending w1 !! 2 = Some (ConnectCatch db1 None) ∧
  settled w2 = settled w ∧
  unhandled w2 = [(2, Error "handshake")] ∧
  (db1 ∉ urls (client w2)).
Proof.
  assert (subscriptions (run sample_texts init connected_once) !! 0
          = Some db1) as Hsub by reflexivity.
  destruct (reconnect_failure_is_dropped sample_texts _ 0 db1
              (Error "handshake") Hsub)
    as (Hp & _ & _ & Hs & Hun & _ & Hout).
  cbv zeta. split; [exact Hsub|].
  split; [exact Hp|]. split; [exact Hs|].
  split; [exact Hun|]. exact Hout.
Defined.

(** ** A second [connect] while the first is pending *)

(** C1 (as the code has it). Two [connect(url)] calls made while [url]
    is not tracked each query the oracle, and when both are answered
    "reachable" each starts its own protocol connect (both with the
    options stored by the later call), so two are in flight together.
    Once one of them has resolved, [url] is tracked and a further
    [connect(url)] queries nothing and starts nothing. *)
Theorem second_connect_while_pending
    (StatusTexts : Z → option string) (w : World) (url : string)
    (opts1 opts2 opts3 : option (gmap string jsval)) :
  url ∉ urls (client w) →
  let o1 := next_promise w in
  let o2 := S o1 in
  let p1 := S o2 in
  let p2 := S p1 in
  let stored := Object_assign ∅ [opts2; Some defaultSyncOptions] in
  let w' := run StatusTexts w
              [App_connect url opts1; App_connect url opts2;
               Settle o1 (ReplyBool true); Settle o2 (ReplyBool true)] in
  let w'' := run StatusTexts w' [Settle p1 ReplyVoid; App_connect url opts3] in
  isOnline_calls w' = isOnline_calls w ++ [url; url] ∧
  syncable_calls w' =
    syncable_calls w
      ++ [SyncableConnect SYNCABLE_PROTOCOL url (Some stored);
          SyncableConnect SYNCABLE_PROTOCOL url (Some stored)] ∧
  pending w' !! p1 = Some (ConnectCatch url (Some o1)) ∧
  pending w' !! p2 = Some (ConnectCatch url (Some o2)) ∧
  url ∈ urls (client w'') ∧
  isOnline_calls w'' = isOnline_calls w' ∧
  syncable_calls w'' = syncable_calls w'.
Proof.
  intros Hout. cbv zeta. unfold run; cbn [foldl].
  destruct (step_connect_untracked StatusTexts w url opts1 Hout)
    as (Hq1 & Hp1 & Hn1 & Hu1 & Ho1 & Hf1 & Hs1).
  set (w1 := step StatusTexts w (App_connect url opts1)) in *.
  assert (url ∉ urls (client w1)) as Hout1 by (by rewrite Hu1).
  destruct (step_connect_untracked StatusTexts w1 url opts2 Hout1)
    as (Hq2 & Hp2 & Hn2 & Hu2 & Ho2 & Hf2 & Hs2).
  set (w2 := step StatusTexts w1 (App_connect url opts2)) in *.
  assert (pending w2 !! next_promise w = Some (IsOnlineThen url)) as Hpo1.
  { rewrite Hp2, Hn1, Hp1. rewrite lookup_insert_ne by lia.
    apply lookup_insert_eq. }
  destruct (isOnline_true StatusTexts w2 _ _ Hpo1)
    as (Hf3 & Hp3 & Hn3 & Hc3 & Hs3 & _ & Hq3).
  set (w3 := step StatusTexts w2 (Settle (next_promise w) (ReplyBool true))) in *.
  assert (pending w3 !! S (next_promise w) = Some (IsOnlineThen url)) as Hpo2.
  { rewrite Hp3, Hn2, Hn1. rewrite lookup_insert_ne by lia.
    rewrite lookup_delete_ne by lia. rewrite Hp2, Hn1.
    apply lookup_insert_eq. }
  destruct (isOnline_true StatusTexts w3 _ _ Hpo2)
    as (Hf4 & Hp4 & Hn4 & Hc4 & Hs4 & _ & Hq4).
  set (w4 := step StatusTexts w3 (Settle (S (next_promise w)) (ReplyBool true))) in *.
  assert (pending w4 !! S (S (next_promise w))
          = Some (ConnectCatch url (Some (next_promise w)))) as Hpp1.
  { rewrite Hp4, Hn3, Hn2, Hn1. rewrite lookup_insert_ne by lia.
    rewrite lookup_delete_ne by lia. rewrite Hp3, Hn2, Hn1.
    apply lookup_insert_eq. }
  assert (pending w4 !! S (S (S (next_promise w)))
          = Some (ConnectCatch url (Some (S (next_promise w))))) as Hpp2.
  { rewrite Hp4, Hn3, Hn2, Hn1. apply lookup_insert_eq. }
  destruct (connect_resolved StatusTexts w4 _ _ _ Hpp1)
    as (Hu5 & Hs5 & Hf5 & _ & _ & Hq5).
  set (w5 := step StatusTexts w4 (Settle (S (S (next_promise w))) ReplyVoid)) in *.
  assert (url ∈ urls (client w5)) as Hin5.
  { rewrite Hu5. apply elem_of_app. right. left. }
  destruct (step_connect_tracked StatusTexts w5 url opts3 Hin5)
    as (Hc6 & Hq6 & _ & Hf6 & _).
  assert (options (client w2) !! url
          = Some (Object_assign ∅ [opts2; Some defaultSyncOptions])) as Hopt.
  { rewrite Ho2. apply lookup_insert_eq. }
  repeat split.
  - rewrite Hq4, Hq3, Hq2, Hq1. by rewrite <- app_assoc.
  - rewrite Hf4, Hc3, Hf3, Hopt, Hf2, Hf1. by rewrite <- app_assoc.
  - exact Hpp1.
  - exact Hpp2.
  - by rewrite Hc6.
  - by rewrite Hq6, Hq5.
  - by rewrite Hf6, Hf5.
Qed.

Lemma second_connect_while_pending_witness :
  let w' := run sample_texts init overlapping_connects in
  (db1 ∉ urls (client init)) ∧
  pending w' !! 2 = Some (ConnectCatch db1 (Some 0)) ∧
  pending w' !! 3 = Some (ConnectCatch db1 (Some 1)) ∧
  db1 ∈ urls (client (run sample_texts w'
                        [Settle 2 ReplyVoid; App_connect db1 None])).
Proof.
  assert (db1 ∉ urls (client init)) as Hout by apply not_elem_of_nil.
  destruct (second_connect_while_pending sample_texts init db1
              None None None Hout)
    as (_ & _ & Hp1 & Hp2 & Hin & _).
  cbv zeta. split; [exact Hout|].
  split; [exact Hp1|]. split; [exact Hp2|]. exact Hin.
Defined.

(** C1 (as the spec states it) fails: after two [connect(db1)] calls
    made in succession and answered "reachable", the facade has
    received two connect calls and two protocol connects for [db1] are
    pending at once. *)
Lemma second_connect_starts_second_attempt :
  let w := run sample_texts init overlapping_connects in
  syncable_calls w =
    [SyncableConnect SYNCABLE_PROTOCOL db1 (Some defaultSyncOptions);
     SyncableConnect SYNCABLE_PROTOCOL db1 (Some defaultSyncOptions)] ∧
  pending w !! 2 = Some (ConnectCatch db1 (Some 0)) ∧
  pending w !! 3 = Some (ConnectCatch db1 (Some 1)).
Proof. vm_compute. repeat split; reflexivity. Qed.

(** ** The tracked set along a trace *)

(** Counting occurrences in [urls] and in the subscription list. *)

Lemma occurrences_app E l1 l2 :
  occurrences E (l1 ++ l2) = occurrences E l1 + occurrences E l2.
Proof. unfold occurrences. by rewrite filter_app, length_app. Qed.

Lemma occurrences_singleton E url :
  occurrences E [url] = if bool_decide (url = E) then 1 else 0.
Proof.
  unfold occurrences. case_bool_decide.
  - by rewrite filter_cons_True.
  - by rewrite filter_cons_False.
Qed.

Lemma occurrences_filter_ne E url us :
  occurrences E (filter (λ u, u ≠ url) us)
  = if bool_decide (url = E) then 0 else occurrences E us.
Proof.
  unfold occurrences. induction us as [|u us IH]; simpl.
  - by case_bool_decide.
  - destruct (decide (u = url)) as [->|Hne].
    + rewrite (filter_cons_False (λ u, u ≠ url)) by tauto. rewrite IH.
      case_bool_decide as Hd; [done|].
      by rewrite (filter_cons_False (λ u, u = E)) by congruence.
    + rewrite (filter_cons_True (λ u, u ≠ url)) by done.
      destruct (decide (u = E)) as [->|Hne'].
      * rewrite !(filter_cons_True (λ u, u = E)) by done. simpl. rewrite IH.
        case_bool_decide; [congruence|done].
      * rewrite !(filter_cons_False (λ u, u = E)) by done. exact IH.
Qed.

#[local] Hint Rewrite occurrences_filter_ne occurrences_app
  occurrences_singleton : occurrences.

Lemma urls_after_callback url newStatus w :
  urls (client (exec (onlineStatusChanged_callback url newStatus) w))
  = if newStatus then urls (client w)
    else filter (λ u, u ≠ url) (urls (client w)).
Proof. by destruct newStatus. Qed.

Lemma exec_statusChanged StatusTexts status url w :
  exec (statusChanged StatusTexts status url) w =
    match statusChangeListeners (client w) !! url with
    | Some (Some l) =>
        with_listener_calls (λ c, c ++ [(l, StatusTexts status)]) w
    | _ => w
    end.
Proof.
  unfold exec, statusChanged, mbind, M_bind, get.
  by destruct (statusChangeListeners (client w) !! url) as [[l|]|].
Qed.

(** One event: [E] is tracked afterwards iff the event completes a
    [connect(E)], or [E] was tracked and the event does not disconnect it. *)
Lemma tracked_after_step StatusTexts w ev E :
  E ∈ urls (client (step StatusTexts w ev)) ↔
  connect_completes w ev E = true ∨
  (E ∈ urls (client w) ∧ disconnects w ev E = false).
Proof.
  destruct ev as [url opts|url|url|url cb|url|p r|i b|status url].
  - assert (urls (client (step StatusTexts w (App_connect url opts)))
            = urls (client w)) as ->.
    { destruct (decide (url ∈ urls (client w))) as [Hin|Hout].
      - by destruct (step_connect_tracked StatusTexts w url opts Hin) as [-> _].
      - by destruct (step_connect_untracked StatusTexts w url opts Hout)
          as (_ & _ & _ & -> & _). }
    simpl. membership.
  - simpl. membership.
  - simpl. membership.
  - simpl. membership.
  - simpl. membership.
  - unfold step, connect_completes, disconnects.
    destruct (pending w !! p) as [a|] eqn:Hp; [|destruct r; membership].
    destruct a as [url|url [o|]|url [|]|url|url], r as [| [|] | |e];
      simpl; membership.
  - unfold step, connect_completes, disconnects.
    destruct (subscriptions w !! i) as [url|] eqn:Hs.
    + rewrite urls_after_callback. destruct b; membership.
    + destruct b; membership.
  - unfold step. rewrite exec_statusChanged.
    destruct (statusChangeListeners (client w) !! url) as [[l|]|];
      simpl; membership.
Qed.

Lemma run_snoc StatusTexts w evs ev :
  run StatusTexts w (evs ++ [ev]) = step StatusTexts (run StatusTexts w evs) ev.
Proof. unfold run. by rewrite foldl_app. Qed.

Lemma snoc_eq_app_cons {A} (l l1 l2 : list A) (x y : A) :
  l ++ [x] = l1 ++ y :: l2 →
  (l2 = [] ∧ l = l1 ∧ x = y) ∨ (∃ l2', l2 = l2' ++ [x] ∧ l = l1 ++ y :: l2').
Proof.
  destruct l2 as [|z l2 _] using rev_ind; intros Heq.
  - left. apply app_inj_tail in Heq as [-> ->]. done.
  - right. exists l2.
    change (l ++ [x] = l1 ++ (y :: l2) ++ [z]) in Heq.
    rewrite app_assoc in Heq.
    apply app_inj_tail in Heq as [-> ->]. done.
Qed.

(** One event, counting copies: a disconnect drops them all, a
    completed [connect(E)] pushes one more. *)
Lemma copies_after_step StatusTexts w ev E :
  occurrences E (urls (client (step StatusTexts w ev)))
  = if disconnects w ev E then 0
    else if connect_completes w ev E
         then S (occurrences E (urls (client w)))
         else occurrences E (urls (client w)).
Proof.
  destruct ev as [url opts|url|url|url cb|url|p r|i b|status url].
  - assert (urls (client (step StatusTexts w (App_connect url opts)))
            = urls (client w)) as ->.
    { destruct (decide (url ∈ urls (client w))) as [Hin|Hout].
      - by destruct (step_connect_tracked StatusTexts w url opts Hin) as [-> _].
      - by destruct (step_connect_untracked StatusTexts w url opts Hout)
          as (_ & _ & _ & -> & _). }
    done.
  - simpl. copies.
  - simpl. copies.
  - done.
  - done.
  - unfold step, connect_completes, disconnects.
    destruct (pending w !! p) as [a|] eqn:Hp; [|by destruct r].
    destruct a as [url|url [o|]|url [|]|url|url], r as [| [|] | |e];
      simpl; copies.
  - unfold step, connect_completes, disconnects.
    destruct (subscriptions w !! i) as [url|] eqn:Hs.
    + rewrite urls_after_callback. destruct b; copies.
    + by destruct b.
  - unfold step. rewrite exec_statusChanged.
    by destruct (statusChangeListeners (client w) !! url) as [[l|]|].
Qed.

Lemma copies_after_run StatusTexts evs w E :
  occurrences E (urls (client (run StatusTexts w evs)))
  = tracked_copies StatusTexts w evs E (occurrences E (urls (client w))).
Proof.
  revert w. induction evs as [|ev evs IH]; intros w; [done|].
  change (run StatusTexts w (ev :: evs))
    with (run StatusTexts (step StatusTexts w ev) evs).
  rewrite IH, copies_after_step. simpl.
  by destruct (disconnects w ev E), (connect_completes w ev E).
Qed.

(** C2 (as the code has it). After any sequence of events from a new
    client, [E] is in [urls] iff some [connect(E)] call has completed
    successfully and no [disconnect(E)] or [removeUrl(E)] has run
    since, whoever ran it (the application, the cleanup after a failed
    protocol connect, or the subscription callback on [false]); and
    [urls] holds [E] once for each [connect(E)] call that has completed
    successfully since the last of those. *)
Theorem tracked_iff_connected_since
    (StatusTexts : Z → option string) (evs : list event) (E : string) :
  (E ∈ urls (client (run StatusTexts init evs)) ↔
   connected_since StatusTexts evs E) ∧
  occurrences E (urls (client (run StatusTexts init evs)))
    = tracked_copies StatusTexts init evs E 0.
Proof.
  split; [|by rewrite copies_after_run].
  induction evs as [|ev evs IH] using rev_ind.
  - split.
    + intros Hin. by apply elem_of_nil in Hin.
    + intros (pre & ev & post & Heq & _). by destruct pre.
  - rewrite run_snoc, tracked_after_step, IH. split.
    + intros [Hdone | [(pre & ev0 & post & -> & Hc & Hno) Hkeep]].
      * exists evs, ev, []. repeat split; [done|].
        intros post1 ev' post2 Heq. by destruct post1.
      * exists pre, ev0, (post ++ [ev]). split; [by rewrite <- app_assoc|].
        split; [done|].
        intros post1 ev' post2 Heq.
        apply snoc_eq_app_cons in Heq as [(_ & -> & ->) | (post2' & _ & ->)].
        -- exact Hkeep.
        -- by eapply Hno.
    + intros (pre & ev0 & post & Heq & Hc & Hno).
      apply snoc_eq_app_cons in Heq as [(-> & -> & ->) | (post' & -> & ->)].
      * by left.
      * right. split.
        -- exists pre, ev0, post'. repeat split; [done|].
           intros post1 ev' post2 ->.
           apply (Hno post1 ev' (post2 ++ [ev])).
           by rewrite <- app_assoc.
        -- by apply (Hno post' ev []).
Qed.

(** C2 (as the spec states it) fails twice over.  When two overlapping
    [connect(db1)] calls both succeed, [urls] holds [db1] twice.  And
    when the oracle flips off and on again, the reconnect started by
    the callback resolves and [db1] is still missing from [urls]. *)
Lemma tracked_set_duplicate_and_lost_member :
  urls (client (run sample_texts init both_connects_resolve)) = [db1; db1] ∧
  ¬ NoDup (urls (client (run sample_texts init both_connects_resolve))) ∧
  let w := run sample_texts init flip_off_and_on in
  pending w !! 3 = Some (ConnectCatch db1 None) ∧
  urls (client (step sample_texts w (Settle 3 ReplyVoid))) = [].
Proof.
  split; [reflexivity|]. split.
  - intros Hnd.
    change (NoDup [db1; db1]) in Hnd.
    apply NoDup_cons in Hnd as [Hnotin _]. apply Hnotin. left.
  - split; reflexivity.
Qed.

(** ** Reachability subscriptions along a trace *)

Lemma subscriptions_after_callback url newStatus w :
  subscriptions (exec (onlineStatusChanged_callback url newStatus) w)
  = subscriptions w.
Proof. by destruct newStatus. Qed.

(** One event: a subscription for [E] is added exactly when the event
    completes a [connect(E)]; none is ever removed. *)
Lemma subscriptions_after_step StatusTexts w ev E :
  occurrences E (subscriptions (step StatusTexts w ev))
  = occurrences E (subscriptions w)
    + (if connect_completes w ev E then 1 else 0).
Proof.
  destruct ev as [url opts|url|url|url cb|url|p r|i b|status url].
  - assert (subscriptions (step StatusTexts w (App_connect url opts))
            = subscriptions w) as ->.
    { destruct (decide (url ∈ urls (client w))) as [Hin|Hout].
      - by destruct (step_connect_tracked StatusTexts w url opts Hin)
          as (_ & _ & -> & _).
      - by destruct (step_connect_untracked StatusTexts w url opts Hout)
          as (_ & _ & _ & _ & _ & _ & ->). }
    simpl. lia.
  - simpl. lia.
  - simpl. lia.
  - simpl. lia.
  - simpl. lia.
  - unfold step, connect_completes.
    destruct (pending w !! p) as [a|] eqn:Hp; [|destruct r; lia].
    destruct a as [url|url [o|]|url [|]|url|url], r as [| [|] | |e];
      simpl; try lia.
    by rewrite occurrences_app, occurrences_singleton.
  - unfold step, connect_completes.
    destruct (subscriptions w !! i) as [url|] eqn:Hs; [|lia].
    rewrite subscriptions_after_callback. lia.
  - unfold step. rewrite exec_statusChanged.
    destruct (statusChangeListeners (client w) !! url) as [[l|]|];
      simpl; lia.
Qed.

Lemma subscriptions_after_run StatusTexts evs w E :
  occurrences E (subscriptions (run StatusTexts w evs))
  = occurrences E (subscriptions w) + completions StatusTexts w evs E.
Proof.
  revert w. induction evs as [|ev evs IH]; intros w; simpl.
  - lia.
  - change (run StatusTexts w (ev :: evs))
      with (run StatusTexts (step StatusTexts w ev) evs).
    rewrite IH, subscriptions_after_step. lia.
Qed.

(** C6 (as the code has it). After any sequence of events from a new
    client, the number of [onlineStatusChanged] subscriptions
    registered for [E] is the number of [connect(E)] calls that have
    completed successfully: each such completion registers one, and
    nothing unregisters one.  A callback invocation by the oracle,
    whichever way the reachability flips, registers none. *)
Theorem subscriptions_count_completions
    (StatusTexts : Z → option string) (evs : list event) (E : string) :
  occurrences E (subscriptions (run StatusTexts init evs))
    = completions StatusTexts init evs E ∧
  ∀ w i newStatus,
    subscriptions (step StatusTexts w (Oracle_notifies i newStatus))
    = subscriptions w.
Proof.
  split.
  - by rewrite subscriptions_after_run.
  - intros w i b. unfold step.
    destruct (subscriptions w !! i) as [url|]; [|done].
    apply subscriptions_after_callback.
Qed.

(** C6 (as the spec states it) fails: connect, disconnect and connect
    again, all by the application, leave two subscriptions for [db1];
    a later notification through each of them starts its own
    reconnect. *)
Lemma second_connect_adds_subscription :
  let w := run sample_texts init disconnect_then_connect in
  subscriptions w = [db1; db1] ∧
  occurrences db1 (subscriptions w) = 2 ∧
  let w' := run sample_texts w [Oracle_notifies 0 true; Oracle_notifies 1 true] in
  pending w' !! 5 = Some (ConnectCatch db1 None) ∧
  pending w' !! 6 = Some (ConnectCatch db1 None).
Proof. vm_compute. repeat split; reflexivity. Qed.

(** ** Status events and [getStatus] *)

Lemma getStatus_settles StatusTexts w p url :
  pending w !! p = Some (GetStatusThen url) →
  (∀ status,
     settled (step StatusTexts w (Settle p (ReplyStatus status)))
     = <[p := Fulfilled (StatusTexts status)]> (settled w)) ∧
  (∀ e,
     settled (step StatusTexts w (Settle p (ReplyError e)))
     = <[p := Rejected e]> (settled w)).
Proof.
  intros Hp. split; intros x;
    by erewrite step_settle by (exact Hp || reflexivity).
Qed.

(** C7 (as the code has it). The [statusChanged] handler calls the
    listener registered for [url], if there is one, with
    [StatusTexts[status]], and does nothing else: the client's fields,
    the calls made on the facade and every promise are as before, so
    the handler stores no status.  A later [getStatus(u)] asks the
    facade and resolves with the text of the status the facade
    answers with. *)
Theorem statusChanged_only_notifies
    (StatusTexts : Z → option string) (w : World) (status : Z)
    (url u : string) (answer : Z) :
  let w' := step StatusTexts w (Syncable_statusChanged status url) in
  let p := next_promise w' in
  let w'' := run StatusTexts w' [App_getStatus u; Settle p (ReplyStatus answer)] in
  listener_calls w' =
    listener_calls w
      ++ match statusChangeListeners (client w) !! url with
         | Some (Some l) => [(l, StatusTexts status)]
         | _ => []
         end ∧
  client w' = client w ∧
  syncable_calls w' = syncable_calls w ∧
  isOnline_calls w' = isOnline_calls w ∧
  subscriptions w' = subscriptions w ∧
  pending w' = pending w ∧
  settled w' = settled w ∧
  unhandled w' = unhandled w ∧
  syncable_calls w'' = syncable_calls w ++ [SyncableGetStatus u] ∧
  settled w'' = <[p := Fulfilled (StatusTexts answer)]> (settled w).
Proof.
  cbv zeta. unfold run; cbn [foldl].
  assert (pending (step StatusTexts
                     (step StatusTexts w (Syncable_statusChanged status url))
                     (App_getStatus u))
            !! next_promise (step StatusTexts w (Syncable_statusChanged status url))
          = Some (GetStatusThen u)) as Hp by apply lookup_insert_eq.
  destruct (getStatus_settles StatusTexts _ _ _ Hp) as [Hok _].
  rewrite Hok.
  assert (syncable_calls
            (step StatusTexts
               (step StatusTexts
                  (step StatusTexts w (Syncable_statusChanged status url))
                  (App_getStatus u))
               (Settle (next_promise
                          (step StatusTexts w (Syncable_statusChanged status url)))
                       (ReplyStatus answer)))
          = syncable_calls
              (step StatusTexts w (Syncable_statusChanged status url))
            ++ [SyncableGetStatus u]) as ->.
  { by erewrite step_settle by (exact Hp || reflexivity). }
  change (settled (step StatusTexts
                     (step StatusTexts w (Syncable_statusChanged status url))
                     (App_getStatus u)))
    with (settled (step StatusTexts w (Syncable_statusChanged status url))).
  change (step StatusTexts w (Syncable_statusChanged status url))
    with (exec (statusChanged StatusTexts status url) w).
  rewrite exec_statusChanged.
  destruct (statusChangeListeners (client w) !! url) as [[l|]|]; simpl;
    rewrite ?app_nil_r; done.
Qed.

(** C7 (as the spec states it) fails: the facade reports status 2
    ("ONLINE") for [db1]; the handler leaves the world as it was, and
    a later [getStatus(db1)] that the facade answers with 0 resolves
    with "OFFLINE", not with the text of the event. *)
Lemma getStatus_does_not_reflect_event :
  step sample_texts init (Syncable_statusChanged 2 db1) = init ∧
  settled (run sample_texts init event_then_getStatus) !! 0
    = Some (Fulfilled (Some "OFFLINE")) ∧
  settled (run sample_texts init event_then_getStatus) !! 0
    ≠ Some (Fulfilled (sample_texts 2)).
Proof. split; [reflexivity|]. split; [reflexivity|]. discriminate. Qed.

(** C8 (as the code has it). [getStatus(url)] looks at none of the
    client's fields: whatever the world, it calls the facade's
    [getStatus(url)], resolves with [StatusTexts[status]] when the
    facade answers [status], and rejects with the facade's error when
    the facade rejects. *)
Theorem getStatus_forwards_to_facade
    (StatusTexts : Z → option string) (w : World) (url : string) :
  let p := next_promise w in
  let w1 := step StatusTexts w (App_getStatus url) in
  client w1 = client w ∧
  syncable_calls w1 = syncable_calls w ++ [SyncableGetStatus url] ∧
  pending w1 !! p = Some (GetStatusThen url) ∧
  settled w1 = settled w ∧
  (∀ status,
     settled (step StatusTexts w1 (Settle p (ReplyStatus status)))
     = <[p := Fulfilled (StatusTexts status)]> (settled w)) ∧
  (∀ e,
     settled (step StatusTexts w1 (Settle p (ReplyError e)))
     = <[p := Rejected e]> (settled w)).
Proof.
  cbv zeta.
  assert (pending (step StatusTexts w (App_getStatus url)) !! next_promise w
          = Some (GetStatusThen url)) as Hp by apply lookup_insert_eq.
  destruct (getStatus_settles StatusTexts _ _ _ Hp) as [Hok Herr].
  repeat split; done.
Qed.

(** C8 (as the spec states it) fails: on a new client, and on one where
    [removeUrl(db1)] has just run, [getStatus(db1)] resolves with a
    status text as soon as the facade answers with a status. *)
Lemma getStatus_of_unknown_endpoint_resolves :
  urls (client init) = [] ∧
  settled (run sample_texts init
             [App_getStatus db1; Settle 0 (ReplyStatus 0)]) !! 0
    = Some (Fulfilled (Some "OFFLINE")) ∧
  settled (run sample_texts init
             [App_removeUrl db1; App_getStatus db1; Settle 1 (ReplyStatus 0)]) !! 1
    = Some (Fulfilled (Some "OFFLINE")).
Proof. repeat split; reflexivity. Qed.


(** * Further properties of the client *)

(** ** Case analysis on one event *)

Lemma step_connect_tracked_eq StatusTexts w url opts :
  url ∈ urls (client w) →
  step StatusTexts w (App_connect url opts) = exec Promise_resolve w.
Proof. intros Hin. unfold step, exec. by rewrite connect_tracked. Qed.

Lemma step_connect_untracked_eq StatusTexts w url opts :
  url ∉ urls (client w) →
  step StatusTexts w (App_connect url opts) =
    exec (isOnline url)
      (with_options
         (<[url := Object_assign ∅ [opts; Some defaultSyncOptions]]>) w).
Proof. intros Hout. unfold step, exec. by rewrite connect_untracked. Qed.

#[local] Arguments Object_assign : simpl never.

(** Splits the goal along the branches [step] takes on [ev]. *)
Ltac step_cases StatusTexts w ev :=
  let Hp := fresh "Hp" in
  let Hs := fresh "Hs" in
  let Hl := fresh "Hl" in
  destruct ev as [?url ?opts|?url|?url|?url ?cb|?url|?p ?r|?i ?b|?status ?url];
  [ match goal with
    | |- context [App_connect ?url ?opts] =>
        destruct (decide (url ∈ urls (client w)));
        [ rewrite (step_connect_tracked_eq StatusTexts w url opts) by assumption
        | rewrite (step_connect_untracked_eq StatusTexts w url opts) by assumption ]
    end
  | | | |
  | match goal with
    | |- context [Settle ?p ?r] =>
        unfold step;
        destruct (pending w !! p)
          as [[?url|?url [?o|]|?url [|]|?url|?url]|] eqn:Hp;
        [ destruct r as [|[|]| |?e] .. | ]
    end
  | match goal with
    | |- context [Oracle_notifies ?i ?b] =>
        unfold step;
        destruct (subscriptions w !! i) as [?url|] eqn:Hs; [destruct b|]
    end
  | match goal with
    | |- context [Syncable_statusChanged ?status ?url] =>
        unfold step; rewrite exec_statusChanged;
        destruct (statusChangeListeners (client w) !! url) as [[?l|]|] eqn:Hl
    end ];
  simpl.

(** Splits every lookup in an updated map on whether the keys agree. *)
Ltac map_cases :=
  repeat match goal with
  | H : context [<[?i := _]> _ !! ?j] |- _ =>
      rewrite lookup_insert in H; case_decide; simplify_eq
  | H : context [delete ?i _ !! ?j] |- _ =>
      rewrite lookup_delete in H; case_decide; simplify_eq
  | H : context [alter _ ?i _ !! ?j] |- _ =>
      rewrite lookup_alter in H; case_decide; simplify_eq
  | |- context [<[?i := _]> _ !! ?j] =>
      rewrite lookup_insert; case_decide; simplify_eq
  | |- context [delete ?i _ !! ?j] =>
      rewrite lookup_delete; case_decide; simplify_eq
  | |- context [alter _ ?i _ !! ?j] =>
      rewrite lookup_alter; case_decide; simplify_eq
  end.

(** ** Promises settle once *)

(** Derives the bounds that [wf] gives for the promises at hand. *)
Ltac saturate H1 H2 H3 H4 H5 :=
  repeat match goal with
  | Ha : pending ?w !! ?p = Some (ConnectCatch _ (Some ?o)),
    Hb : pending ?w !! ?p' = Some (ConnectCatch _ (Some ?o)) |- _ =>
      lazymatch p with
      | p' => fail
      | _ => assert (p = p') by (eapply H5; eassumption); subst
      end
  | H : pending ?w !! ?p = Some (ConnectCatch _ (Some ?o)) |- _ =>
      lazymatch goal with
      | _ : o < next_promise w |- _ => fail
      | _ => destruct (H4 _ _ _ H) as (? & ? & ?)
      end
  | H : pending ?w !! ?p = Some _ |- _ =>
      lazymatch goal with
      | _ : p < next_promise w |- _ => fail
      | _ => pose proof (H1 _ _ H); pose proof (H3 _ _ H)
      end
  | H : settled ?w !! ?p = Some _ |- _ =>
      lazymatch goal with
      | _ : p < next_promise w |- _ => fail
      | _ => pose proof (H2 _ _ H)
      end
  end.

Lemma wf_init : wf init.
Proof. split; simpl; intros *; rewrite ?lookup_empty; done. Qed.

Lemma wf_step StatusTexts w ev : wf w → wf (step StatusTexts w ev).
Proof.
  intros [H1 H2 H3 H4 H5].
  step_cases StatusTexts w ev; try (split; assumption).
  all: split; simpl; intros; map_cases; saturate H1 H2 H3 H4 H5;
    repeat split; try lia; try congruence; eauto;
    try match goal with
        | |- ?m !! ?k = None =>
            destruct (m !! k) eqn:?; [exfalso|reflexivity];
            saturate H1 H2 H3 H4 H5; first [lia | congruence]
        end.
Qed.

Lemma wf_run StatusTexts evs w : wf w → wf (run StatusTexts w evs).
Proof.
  revert w. induction evs as [|ev evs IH]; intros w Hw; [done|].
  apply (IH (step StatusTexts w ev)). by apply wf_step.
Qed.

Lemma wf_reachable StatusTexts evs : wf (run StatusTexts init evs).
Proof. apply wf_run, wf_init. Qed.

Lemma settled_after_step StatusTexts w ev o s :
  wf w → settled w !! o = Some s →
  settled (step StatusTexts w ev) !! o = Some s.
Proof.
  intros [H1 H2 H3 H4 H5] Ho.
  step_cases StatusTexts w ev; try assumption;
    map_cases; saturate H1 H2 H3 H4 H5;
    first [assumption | lia | congruence].
Qed.

Lemma run_app StatusTexts w evs more :
  run StatusTexts w (evs ++ more) = run StatusTexts (run StatusTexts w evs) more.
Proof. unfold run. apply foldl_app. Qed.

(** X1. Once a promise held by the application has settled, no later
    event changes what it settled with, and it is never pending again. *)
Theorem settlement_is_final
    (StatusTexts : Z → option string) (evs more : list event)
    (o : promise) (s : settlement) :
  settled (run StatusTexts init evs) !! o = Some s →
  settled (run StatusTexts init (evs ++ more)) !! o = Some s ∧
  pending (run StatusTexts init (evs ++ more)) !! o = None.
Proof.
  intros Ho.
  assert (settled (run StatusTexts init (evs ++ more)) !! o = Some s) as Hs.
  { rewrite run_app.
    pose proof (wf_reachable StatusTexts evs) as Hw.
    revert Hw Ho. generalize (run StatusTexts init evs) as w.
    induction more as [|ev more IH]; intros w Hw Ho; [done|].
    apply (IH (step StatusTexts w ev)).
    - by apply wf_step.
    - by apply settled_after_step. }
  split; [exact Hs|].
  destruct (pending (run StatusTexts init (evs ++ more)) !! o) as [a|] eqn:Hp;
    [|done].
  pose proof (wf_disjoint _ (wf_reachable StatusTexts (evs ++ more)) _ _ Hp).
  congruence.
Qed.

Lemma settlement_is_final_witness :
  settled (run sample_texts init
             (connected_once ++ [App_disconnect db1; Oracle_notifies 0 true]))
    !! 0 = Some (Fulfilled None).
Proof.
  assert (settled (run sample_texts init connected_once) !! 0
          = Some (Fulfilled None)) as Ho by reflexivity.
  exact (proj1 (settlement_is_final sample_texts connected_once
                  [App_disconnect db1; Oracle_notifies 0 true] 0 _ Ho)).
Defined.

(** ** The options handed to the facade *)

Lemma Object_assign_has_defaults opts :
  has_defaults (Object_assign ∅ [opts; Some defaultSyncOptions]).
Proof.
  rewrite Object_assign_defaults. split; by apply lookup_union_Some_l.
Qed.

Lemma options_inv_init : options_inv init.
Proof.
  split; simpl; intros *; rewrite ?lookup_empty; try done.
  all: intros H; by apply elem_of_nil in H.
Qed.

Lemma options_inv_step StatusTexts w ev :
  options_inv w → options_inv (step StatusTexts w ev).
Proof.
  intros [H1 H2 H3 H4 H5].
  step_cases StatusTexts w ev; try (split; assumption).
  all: split; simpl; intros *; rewrite ?elem_of_app, ?list_elem_of_singleton;
    intros; map_cases; destruct_or?; simplify_eq;
    eauto using Object_assign_has_defaults.
  - destruct (H2 _ _ Hp) as [bag Hbag].
    split; [done|]. exists bag. eauto.
  - apply H4. by eapply list_elem_of_lookup_2.
  - assert (url ∈ subscriptions w) as Hin by (by eapply list_elem_of_lookup_2).
    destruct (H4 _ Hin) as [bag Hbag].
    split; [done|]. exists bag. eauto.
Qed.

Lemma options_inv_run StatusTexts evs w :
  options_inv w → options_inv (run StatusTexts w evs).
Proof.
  revert w. induction evs as [|ev evs IH]; intros w Hw; [done|].
  apply (IH (step StatusTexts w ev)). by apply options_inv_step.
Qed.

(** X2. Whatever has happened, every [syncable.connect] call the
    client has made, first connect or reconnect, named the protocol
    "sync_client_protocol" and passed a defined options bag whose
    [pollInterval] is 10000 and whose [credentials] is "omit". *)
Theorem connect_calls_carry_defaults
    (StatusTexts : Z → option string) (evs : list event)
    (proto url : string) (o : option (gmap string jsval)) :
  SyncableConnect proto url o ∈ syncable_calls (run StatusTexts init evs) →
  proto = "sync_client_protocol" ∧
  ∃ bag, o = Some bag ∧
         bag !! "pollInterval" = Some (JNum 10000) ∧
         bag !! "credentials" = Some (JStr "omit").
Proof.
  intros Hin.
  destruct (inv_calls _ (options_inv_run StatusTexts evs init options_inv_init)
              _ _ _ Hin) as (-> & bag & -> & Hp & Hc).
  split; [done|]. by exists bag.
Qed.

Lemma connect_calls_carry_defaults_witness :
  ∃ bag,
    syncable_calls (run sample_texts init
                      [App_connect db1 (Some caller_options);
                       Settle 0 (ReplyBool true)])
      = [SyncableConnect "sync_client_protocol" db1 (Some bag)] ∧
    bag !! "pollInterval" = Some (JNum 10000) ∧
    bag !! "credentials" = Some (JStr "omit").
Proof.
  eexists. split; [reflexivity|].
  match goal with
  | |- ?b !! _ = _ ∧ _ =>
      assert (SyncableConnect "sync_client_protocol" db1 (Some b)
              ∈ syncable_calls (run sample_texts init
                                  [App_connect db1 (Some caller_options);
                                   Settle 0 (ReplyBool true)])) as Hin
        by (apply list_elem_of_singleton; reflexivity)
  end.
  destruct (connect_calls_carry_defaults sample_texts _ _ _ _ Hin)
    as (_ & bag & Heq & Hp & Hc).
  injection Heq as <-. by split.
Defined.

(** X3. The client never forgets the options of an endpoint: once a
    bag is stored for [url] it stays stored across every event,
    [disconnect(url)] and [removeUrl(url)] included. *)
Theorem options_are_never_deleted
    (StatusTexts : Z → option string) (w : World) (evs : list event)
    (url : string) :
  is_Some (options (client w) !! url) →
  is_Some (options (client (run StatusTexts w evs)) !! url).
Proof.
  revert w. induction evs as [|ev evs IH]; intros w Hsome; [done|].
  apply (IH (step StatusTexts w ev)).
  step_cases StatusTexts w ev; try assumption.
  rewrite lookup_insert_is_Some. destruct (decide (url0 = url)); auto.
Qed.

Lemma options_are_never_deleted_witness :
  is_Some (options (client (run sample_texts init
                              (connected_once ++ [App_removeUrl db1])))
             !! db1).
Proof.
  assert (is_Some (options (client (run sample_texts init connected_once))
                     !! db1)) as Hs by (eexists; reflexivity).
  rewrite run_app.
  exact (options_are_never_deleted sample_texts _ [App_removeUrl db1] db1 Hs).
Defined.

(** ** Tracked endpoints and their subscriptions *)

Lemma occurrences_zero E l : occurrences E l = 0 ↔ E ∉ l.
Proof.
  unfold occurrences. induction l as [|u l IH]; simpl.
  - split; [intros _; apply not_elem_of_nil | done].
  - rewrite not_elem_of_cons. destruct (decide (u = E)) as [->|Hne].
    + rewrite filter_cons_True by done. simpl. split; [lia | tauto].
    + rewrite filter_cons_False by done. rewrite IH. intuition congruence.
Qed.

Lemma tracked_le_subscribed_run StatusTexts evs w E :
  occurrences E (urls (client w)) ≤ occurrences E (subscriptions w) →
  occurrences E (urls (client (run StatusTexts w evs)))
  ≤ occurrences E (subscriptions (run StatusTexts w evs)).
Proof.
  revert w. induction evs as [|ev evs IH]; intros w Hle; [done|].
  apply (IH (step StatusTexts w ev)).
  rewrite copies_after_step, subscriptions_after_step.
  destruct (disconnects w ev E), (connect_completes w ev E); lia.
Qed.

(** X4. Whatever has happened, an endpoint that is in [urls] has a
    reachability subscription registered with the oracle; more
    precisely [urls] never holds an endpoint more often than the
    oracle holds subscriptions for it. *)
Theorem tracked_endpoints_are_subscribed
    (StatusTexts : Z → option string) (evs : list event) (E : string) :
  let w := run StatusTexts init evs in
  occurrences E (urls (client w)) ≤ occurrences E (subscriptions w) ∧
  (E ∈ urls (client w) → E ∈ subscriptions w).
Proof.
  cbv zeta.
  assert (occurrences E (urls (client (run StatusTexts init evs)))
          ≤ occurrences E (subscriptions (run StatusTexts init evs))) as Hle.
  { apply tracked_le_subscribed_run. done. }
  split; [exact Hle|].
  intros Hin.
  destruct (decide (E ∈ subscriptions (run StatusTexts init evs)))
    as [|Hout]; [done|].
  apply occurrences_zero in Hout.
  assert (occurrences E (urls (client (run StatusTexts init evs))) = 0)
    as Hz by lia.
  apply occurrences_zero in Hz. done.
Qed.

(** ** Which listener a status event reaches *)

Lemma expected_calls_ext StatusTexts evs reg reg' :
  (∀ u, reg u = reg' u) →
  expected_calls StatusTexts evs reg = expected_calls StatusTexts evs reg'.
Proof.
  revert reg reg'. induction evs as [|ev evs IH]; intros reg reg' Heq; [done|].
  simpl. f_equal.
  - destruct ev; simpl; try done. by rewrite Heq.
  - apply IH. intros u. destruct ev; simpl; try done; by rewrite Heq.
Qed.

Lemma listener_calls_after_step StatusTexts w ev :
  listener_calls (step StatusTexts w ev)
  = listener_calls w ++ notified StatusTexts ev (registry w).
Proof.
  unfold registry.
  step_cases StatusTexts w ev; rewrite ?app_nil_r; try done.
  all: by rewrite Hl, ?app_nil_r.
Qed.

Lemma registry_after_step StatusTexts w ev u :
  registry (step StatusTexts w ev) u = register ev (registry w) u.
Proof.
  unfold registry.
  step_cases StatusTexts w ev; try done.
  all: case_bool_decide; subst; map_cases; done.
Qed.

Lemma listener_calls_after_run StatusTexts evs w :
  listener_calls (run StatusTexts w evs)
  = listener_calls w ++ expected_calls StatusTexts evs (registry w).
Proof.
  revert w. induction evs as [|ev evs IH]; intros w.
  - simpl. by rewrite app_nil_r.
  - change (run StatusTexts w (ev :: evs))
      with (run StatusTexts (step StatusTexts w ev) evs).
    rewrite IH, listener_calls_after_step, <- app_assoc.
    cbn [expected_calls]. do 2 f_equal.
    apply expected_calls_ext. intros u. apply registry_after_step.
Qed.

(** X5. The listener calls made along any trace are exactly these:
    each [statusChanged(status, url)] event calls, with
    [StatusTexts[status]], the listener of the latest
    [statusChange(url, cb)], unless that [cb] was [undefined] or a
    [removeUrl(url)] came after it; no other event calls a listener.
    So a second [statusChange] replaces the first, and [removeUrl]
    silences the endpoint until the next [statusChange]. *)
Theorem listener_calls_follow_registrations
    (StatusTexts : Z → option string) (evs : list event) :
  listener_calls (run StatusTexts init evs)
  = expected_calls StatusTexts evs (λ _, None).
Proof.
  rewrite listener_calls_after_run. simpl.
  apply expected_calls_ext. intros u. unfold registry. simpl.
  by rewrite lookup_empty.
Qed.

(** ** [disconnect] and [removeUrl] *)

Lemma filter_ne_idemp (url : string) (us : list string) :
  filter (λ u, u ≠ url) (filter (λ u, u ≠ url) us) = filter (λ u, u ≠ url) us.
Proof. apply filter_ne_absent, not_elem_of_filter_ne. Qed.

(** X6. [disconnect(url)] is idempotent on the client: after one call
    [url] is not in [urls], a second call changes no field, and when
    [url] was not tracked the first call changes none either.  The
    stored options, the listener slots and the oracle's subscriptions
    are never touched; every call asks the facade to disconnect. *)
Theorem disconnect_is_idempotent
    (StatusTexts : Z → option string) (w : World) (url : string) :
  let w1 := step StatusTexts w (App_disconnect url) in
  let w2 := step StatusTexts w1 (App_disconnect url) in
  (url ∉ urls (client w1)) ∧
  client w2 = client w1 ∧
  (url ∉ urls (client w) → client w1 = client w) ∧
  options (client w1) = options (client w) ∧
  statusChangeListeners (client w1) = statusChangeListeners (client w) ∧
  subscriptions w1 = subscriptions w ∧
  syncable_calls w2 =
    syncable_calls w ++ [SyncableDisconnect url; SyncableDisconnect url].
Proof.
  cbv zeta. simpl. repeat split.
  - apply not_elem_of_filter_ne.
  - by rewrite filter_ne_idemp.
  - intros Hout. rewrite filter_ne_absent by done. by destruct (client w).
  - by rewrite <- app_assoc.
Qed.

(** X7. The promise [disconnect(url)] returns is the facade's: it is
    pending until [syncable.disconnect(url)] settles, fulfils when
    that fulfils, and rejects with the facade's error when that
    rejects, also for an endpoint that was never tracked. *)
Theorem disconnect_returns_facade_outcome
    (StatusTexts : Z → option string) (w : World) (url : string) :
  let q := next_promise w in
  let w1 := step StatusTexts w (App_disconnect url) in
  pending w1 !! q = Some (DisconnectOf url true) ∧
  settled w1 = settled w ∧
  settled (step StatusTexts w1 (Settle q ReplyVoid))
    = <[q := Fulfilled None]> (settled w) ∧
  ∀ e, settled (step StatusTexts w1 (Settle q (ReplyError e)))
       = <[q := Rejected e]> (settled w) ∧
       unhandled (step StatusTexts w1 (Settle q (ReplyError e))) = unhandled w.
Proof.
  cbv zeta.
  assert (pending (step StatusTexts w (App_disconnect url)) !! next_promise w
          = Some (DisconnectOf url true)) as Hq.
  { simpl. rewrite lookup_alter_eq, lookup_insert_eq. done. }
  split; [exact Hq|]. split; [done|]. split; [|intros e; split].
  all: by erewrite step_settle by (exact Hq || reflexivity).
Qed.

(** X8. [removeUrl(url)] takes [url] out of [urls], empties its
    listener slot and asks the facade to delete it; the other
    endpoints keep their listener and their membership, and the
    options stored for [url] and the oracle's subscriptions stay.  A
    second call changes no field of the client.  The returned promise
    settles as [syncable.delete(url)] does. *)
Theorem removeUrl_clears_listener_only
    (StatusTexts : Z → option string) (w : World) (url : string) :
  let q := next_promise w in
  let w1 := step StatusTexts w (App_removeUrl url) in
  (url ∉ urls (client w1)) ∧
  registry w1 url = None ∧
  (∀ u, u ≠ url →
        registry w1 u = registry w u ∧
        (u ∈ urls (client w1) ↔ u ∈ urls (client w))) ∧
  options (client w1) = options (client w) ∧
  subscriptions w1 = subscriptions w ∧
  syncable_calls w1 = syncable_calls w ++ [SyncableDelete url] ∧
  client (step StatusTexts w1 (App_removeUrl url)) = client w1 ∧
  settled (step StatusTexts w1 (Settle q ReplyVoid))
    = <[q := Fulfilled None]> (settled w) ∧
  ∀ e, settled (step StatusTexts w1 (Settle q (ReplyError e)))
       = <[q := Rejected e]> (settled w).
Proof.
  cbv zeta.
  assert (pending (step StatusTexts w (App_removeUrl url)) !! next_promise w
          = Some (DeleteOf url)) as Hq by apply lookup_insert_eq.
  split; [apply not_elem_of_filter_ne|].
  split; [unfold registry; simpl; by rewrite lookup_insert_eq|].
  split.
  { intros u Hne. unfold registry; simpl.
    rewrite lookup_insert_ne by done. split; [done|].
    rewrite list_elem_of_filter. tauto. }
  do 3 (split; [done|]).
  split.
  { simpl. by rewrite filter_ne_idemp, insert_insert_eq. }
  split; [|intros e].
  all: by erewrite step_settle by (exact Hq || reflexivity).
Qed.

(** ** The paths through [connect] *)

(** X9. [connect(url, opts)] on an endpoint that is not tracked, with
    the oracle answering "reachable" and the protocol connect
    resolving: the returned promise fulfils with [undefined], [url] is
    appended to [urls], one subscription for [url] is registered, the
    oracle was asked once, the facade got one connect call carrying
    the stored options, and the listener slots are untouched. *)
Theorem connect_reachable_tracks
    (StatusTexts : Z → option string) (w : World) (url : string)
    (opts : option (gmap string jsval)) :
  url ∉ urls (client w) →
  let o := next_promise w in
  let p := S o in
  let stored := Object_assign ∅ [opts; Some defaultSyncOptions] in
  let w' := run StatusTexts w
              [App_connect url opts; Settle o (ReplyBool true);
               Settle p ReplyVoid] in
  settled w' = <[o := Fulfilled None]> (settled w) ∧
  urls (client w') = urls (client w) ++ [url] ∧
  subscriptions w' = subscriptions w ++ [url] ∧
  isOnline_calls w' = isOnline_calls w ++ [url] ∧
  syncable_calls w' =
    syncable_calls w ++ [SyncableConnect SYNCABLE_PROTOCOL url (Some stored)] ∧
  options (client w') = <[url := stored]> (options (client w)) ∧
  statusChangeListeners (client w') = statusChangeListeners (client w) ∧
  unhandled w' = unhandled w.
Proof.
  intros Hout. cbv zeta. unfold run; cbn [foldl].
  rewrite step_connect_untracked_eq by done.
  set (w1 := exec (isOnline url) _).
  assert (pending w1 !! next_promise w = Some (IsOnlineThen url)) as Hp1
    by apply lookup_insert_eq.
  erewrite (step_settle StatusTexts w1) by (exact Hp1 || reflexivity).
  set (w2 := exec _ _).
  assert (pending w2 !! S (next_promise w)
          = Some (ConnectCatch url (Some (next_promise w)))) as Hp2
    by apply lookup_insert_eq.
  erewrite (step_settle StatusTexts w2) by (exact Hp2 || reflexivity).
  subst w2 w1. simpl. rewrite lookup_insert_eq. done.
Qed.

Lemma connect_reachable_tracks_witness :
  let w' := run sample_texts init
              [App_connect db1 (Some caller_options);
               Settle 0 (ReplyBool true); Settle 1 ReplyVoid] in
  (db1 ∉ urls (client init)) ∧
  settled w' !! 0 = Some (Fulfilled None) ∧
  urls (client w') = [db1] ∧
  subscriptions w' = [db1].
Proof.
  assert (db1 ∉ urls (client init)) as Hout by apply not_elem_of_nil.
  destruct (connect_reachable_tracks sample_texts init db1
              (Some caller_options) Hout) as (Hs & Hu & Hsub & _).
  cbv zeta. split; [exact Hout|].
  split; [etrans; [exact (f_equal (λ m, m !! 0) Hs) | reflexivity]|].
  split; assumption.
Defined.

(** X10. When [isOnline(url)] itself rejects with [e], the promise
    [connect] returned rejects with that same [e]; the endpoint is not
    tracked, nothing is asked of the facade and no subscription is
    registered. *)
Theorem connect_oracle_failure_propagates
    (StatusTexts : Z → option string) (w : World) (url : string)
    (opts : option (gmap string jsval)) (e : error) :
  url ∉ urls (client w) →
  let o := next_promise w in
  let w' := run StatusTexts w [App_connect url opts; Settle o (ReplyError e)] in
  settled w' = <[o := Rejected e]> (settled w) ∧
  urls (client w') = urls (client w) ∧
  subscriptions w' = subscriptions w ∧
  syncable_calls w' = syncable_calls w ∧
  unhandled w' = unhandled w.
Proof.
  intros Hout. cbv zeta. unfold run; cbn [foldl].
  rewrite step_connect_untracked_eq by done.
  set (w1 := exec (isOnline url) _).
  assert (pending w1 !! next_promise w = Some (IsOnlineThen url)) as Hp1
    by apply lookup_insert_eq.
  erewrite (step_settle StatusTexts w1) by (exact Hp1 || reflexivity).
  done.
Qed.

Lemma connect_oracle_failure_propagates_witness :
  let w' := run sample_texts init
              [App_connect db1 None; Settle 0 (ReplyError (Error "probe"))] in
  (db1 ∉ urls (client init)) ∧
  settled w' !! 0 = Some (Rejected (Error "probe")) ∧
  urls (client w') = [] ∧
  syncable_calls w' = [].
Proof.
  assert (db1 ∉ urls (client init)) as Hout by apply not_elem_of_nil.
  destruct (connect_oracle_failure_propagates sample_texts init db1 None
              (Error "probe") Hout) as (Hs & Hu & _ & Hf & _).
  cbv zeta. split; [exact Hout|].
  split; [etrans; [exact (f_equal (λ m, m !! 0) Hs) | reflexivity]|].
  split; assumption.
Defined.

(** X11. [disconnect(url)] and [removeUrl(url)] do not cancel a
    [connect(url)] whose protocol connect is still pending: the
    endpoint is untracked right after them, and when the protocol
    connect then resolves the endpoint is tracked again, a
    subscription is registered and the [connect] promise fulfils. *)
Theorem pending_connect_survives_disconnect
    (StatusTexts : Z → option string) (evs : list event) (p o : promise)
    (url : string) (remove : bool) :
  let w := run StatusTexts init evs in
  pending w !! p = Some (ConnectCatch url (Some o)) →
  let ev := if remove then App_removeUrl url else App_disconnect url in
  let w1 := step StatusTexts w ev in
  let w2 := step StatusTexts w1 (Settle p ReplyVoid) in
  (url ∉ urls (client w1)) ∧
  pending w1 !! p = Some (ConnectCatch url (Some o)) ∧
  url ∈ urls (client w2) ∧
  subscriptions w2 = subscriptions w ++ [url] ∧
  settled w2 !! o = Some (Fulfilled None).
Proof.
  cbv zeta. intros Hp.
  pose proof (wf_pending _ (wf_reachable StatusTexts evs) _ _ Hp) as Hlt.
  set (w := run StatusTexts init evs) in *.
  assert (pending (step StatusTexts w
                     (if remove then App_removeUrl url else App_disconnect url))
            !! p = Some (ConnectCatch url (Some o))) as Hp1.
  { destruct remove; simpl.
    - rewrite lookup_insert_ne by lia. done.
    - rewrite lookup_alter_ne by lia. rewrite lookup_insert_ne by lia. done. }
  destruct (connect_resolved StatusTexts _ _ _ _ Hp1)
    as (Hu & Hs & _ & Hset & _).
  split; [destruct remove; apply not_elem_of_filter_ne|].
  split; [exact Hp1|].
  rewrite Hu, Hs, Hset. split; [|split].
  - apply elem_of_app. right. left.
  - by destruct remove.
  - apply lookup_insert_eq.
Qed.

Lemma pending_connect_survives_disconnect_witness :
  let w := run sample_texts init connecting in
  let w2 := run sample_texts w [App_disconnect db1; Settle 1 ReplyVoid] in
  pending w !! 1 = Some (ConnectCatch db1 (Some 0)) ∧
  db1 ∈ urls (client w2) ∧
  settled w2 !! 0 = Some (Fulfilled None).
Proof.
  assert (pending (run sample_texts init connecting) !! 1
          = Some (ConnectCatch db1 (Some 0))) as Hp by reflexivity.
  destruct (pending_connect_survives_disconnect sample_texts connecting
              1 0 db1 false Hp) as (_ & _ & Hin & _ & Hs).
  cbv zeta. split; [exact Hp|]. split; [exact Hin | exact Hs].
Defined.

(** ** Reachability callbacks *)

(** X12. [removeUrl(url)] leaves the oracle's subscription in place:
    when the callback registered for a removed endpoint is later
    invoked with [true], the client calls [syncable.connect] for it
    again, with the options still stored for it. *)
Theorem removed_endpoint_still_reconnects
    (StatusTexts : Z → option string) (w : World) (i : nat) (url : string) :
  subscriptions w !! i = Some url →
  let w' := run StatusTexts w [App_removeUrl url; Oracle_notifies i true] in
  subscriptions w' = subscriptions w ∧
  syncable_calls w' =
    syncable_calls w
      ++ [SyncableDelete url;
          SyncableConnect SYNCABLE_PROTOCOL url (options (client w) !! url)].
Proof.
  intros Hs. cbv zeta. unfold run; cbn [foldl].
  set (w1 := step StatusTexts w (App_removeUrl url)).
  assert (step StatusTexts w1 (Oracle_notifies i true)
          = exec (onlineStatusChanged_callback url true) w1) as ->.
  { unfold step at 1. change (subscriptions w1) with (subscriptions w).
    by rewrite Hs. }
  subst w1. simpl. by rewrite <- app_assoc.
Qed.

Lemma removed_endpoint_still_reconnects_witness :
  let w := run sample_texts init connected_once in
  let w' := run sample_texts w [App_removeUrl db1; Oracle_notifies 0 true] in
  subscriptions w !! 0 = Some db1 ∧
  syncable_calls w' =
    syncable_calls w
      ++ [SyncableDelete db1;
          SyncableConnect SYNCABLE_PROTOCOL db1 (Some defaultSyncOptions)].
Proof.
  assert (subscriptions (run sample_texts init connected_once) !! 0
          = Some db1) as Hs by reflexivity.
  destruct (removed_endpoint_still_reconnects sample_texts _ 0 db1 Hs)
    as [_ Hf].
  cbv zeta. split; [exact Hs|]. etrans; [exact Hf | reflexivity].
Defined.

(** X13. One reachability cycle seen through a registered callback:
    invoked with [false] it calls [disconnect(url)], invoked with
    [true] it calls [syncable.connect] with the stored options, and
    when that connect resolves nothing more happens.  Afterwards
    [url] is not in [urls], the subscriptions are as before and no
    promise of the application has changed. *)
Theorem reachability_cycle_leaves_endpoint_untracked
    (StatusTexts : Z → option string) (w : World) (i : nat) (url : string) :
  subscriptions w !! i = Some url →
  let p := S (next_promise w) in
  let w' := run StatusTexts w
              [Oracle_notifies i false; Oracle_notifies i true;
               Settle p ReplyVoid] in
  (url ∉ urls (client w')) ∧
  subscriptions w' = subscriptions w ∧
  settled w' = settled w ∧
  syncable_calls w' =
    syncable_calls w
      ++ [SyncableDisconnect url;
          SyncableConnect SYNCABLE_PROTOCOL url (options (client w) !! url)].
Proof.
  intros Hs. cbv zeta. unfold run; cbn [foldl].
  assert (step StatusTexts w (Oracle_notifies i false)
          = exec (onlineStatusChanged_callback url false) w) as ->.
  { unfold step. by rewrite Hs. }
  set (w1 := exec _ w).
  assert (step StatusTexts w1 (Oracle_notifies i true)
          = exec (onlineStatusChanged_callback url true) w1) as ->.
  { unfold step at 1.
    change (subscriptions w1) with (subscriptions w). by rewrite Hs. }
  set (w2 := exec _ w1).
  assert (pending w2 !! S (next_promise w) = Some (ConnectCatch url None))
    as Hp by apply lookup_insert_eq.
  erewrite (step_settle StatusTexts w2) by (exact Hp || reflexivity).
  subst w2 w1. simpl. rewrite <- app_assoc.
  split; [apply not_elem_of_filter_ne|done].
Qed.

Lemma reachability_cycle_leaves_endpoint_untracked_witness :
  let w := run sample_texts init connected_once in
  let w' := run sample_texts w
              [Oracle_notifies 0 false; Oracle_notifies 0 true;
               Settle 3 ReplyVoid] in
  subscriptions w !! 0 = Some db1 ∧
  db1 ∈ urls (client w) ∧
  (db1 ∉ urls (client w')) ∧
  subscriptions w' = [db1].
Proof.
  assert (subscriptions (run sample_texts init connected_once) !! 0
          = Some db1) as Hs by reflexivity.
  destruct (reachability_cycle_leaves_endpoint_untracked sample_texts _ 0
              db1 Hs) as (Hout & Hsub & _).
  cbv zeta. split; [exact Hs|].
  split; [vm_compute; left|]. split; [exact Hout|].
  etrans; [exact Hsub | reflexivity].
Defined.

(** ** Endpoints do not interfere *)

Lemma filter_eq_filter_ne (E url : string) (us : list string) :
  url ≠ E →
  filter (λ u, u = E) (filter (λ u, u ≠ url) us) = filter (λ u, u = E) us.
Proof.
  intros Hne. induction us as [|u us IH]; [done|].
  destruct (decide (u = url)) as [->|Hu].
  - rewrite (filter_cons_False (λ u, u ≠ url)) by tauto.
    by rewrite (filter_cons_False (λ u, u = E)) by done.
  - rewrite (filter_cons_True (λ u, u ≠ url)) by done.
    rewrite !(filter_cons (λ u, u = E)). by rewrite IH.
Qed.

Lemma filter_eq_snoc (E url : string) (us : list string) :
  url ≠ E → filter (λ u, u = E) (us ++ [url]) = filter (λ u, u = E) us.
Proof.
  intros Hne. rewrite filter_app.
  rewrite (filter_cons_False (λ u, u = E)) by done. apply app_nil_r.
Qed.

(** X14. An event about one endpoint (a call with that url, a promise
    or a callback whose closure captured it, a status event for it)
    changes nothing the client keeps for another endpoint [E]: the
    options stored for [E], its listener slot, its copies in [urls]
    and its subscriptions are as before. *)
Theorem other_endpoints_untouched
    (StatusTexts : Z → option string) (w : World) (ev : event) (E : string) :
  endpoint_of w ev ≠ Some E →
  let w' := step StatusTexts w ev in
  options (client w') !! E = options (client w) !! E ∧
  statusChangeListeners (client w') !! E
    = statusChangeListeners (client w) !! E ∧
  filter (λ u, u = E) (urls (client w')) = filter (λ u, u = E) (urls (client w)) ∧
  filter (λ u, u = E) (subscriptions w')
    = filter (λ u, u = E) (subscriptions w).
Proof.
  intros Hne. cbv zeta.
  step_cases StatusTexts w ev; simpl in Hne; rewrite ?Hp, ?Hs in Hne;
    simpl in Hne;
    repeat split; try done.
  all: assert (url ≠ E) by congruence.
  all: by rewrite ?lookup_insert_ne, ?filter_eq_filter_ne, ?filter_eq_snoc
         by done.
Qed.

Lemma other_endpoints_untouched_witness :
  let w := run sample_texts init connected_once in
  let w' := step sample_texts w (App_removeUrl db2) in
  endpoint_of w (App_removeUrl db2) ≠ Some db1 ∧
  options (client w') !! db1 = options (client w) !! db1 ∧
  filter (λ u, u = db1) (urls (client w')) = [db1].
Proof.
  assert (endpoint_of (run sample_texts init connected_once)
            (App_removeUrl db2) ≠ Some db1) as Hne by discriminate.
  destruct (other_endpoints_untouched sample_texts _ _ db1 Hne)
    as (Ho & _ & Hu & _).
  cbv zeta. split; [exact Hne|]. split; [exact Ho|].
  etrans; [exact Hu | reflexivity].
Defined.

(** * [getStatuses] *)

Lemma getStatus_each_frame P urls k l :
  gathers (getStatus_each P urls k l) = gathers l ∧
  listed (getStatus_each P urls k l) = listed l ∧
  lister_next (getStatus_each P urls k l) = lister_next l + length urls ∧
  facade_calls (getStatus_each P urls k l)
    = facade_calls l ++ map Facade_getStatus urls ∧
  ∀ q, q < lister_next l →
       elements (getStatus_each P urls k l) !! q = elements l !! q.
Proof.
  revert k l. induction urls as [|url urls IH]; intros k l; simpl.
  - rewrite app_nil_r. repeat split; auto with lia.
  - destruct (IH (S k)
                {| facade_calls := facade_calls l ++ [Facade_getStatus url];
                   gathers := gathers l;
                   elements := <[lister_next l := (P, k)]> (elements l);
                   lister_next := S (lister_next l);
                   listed := listed l |})
      as (Hg & Hl & Hn & Hc & He).
    simpl in *. rewrite Hg, Hl, Hn, Hc, <- app_assoc.
    repeat split; try lia.
    intros q Hq. rewrite He by lia. by rewrite lookup_insert_ne by lia.
Qed.

Lemma getStatus_each_elements P urls k l i :
  i < length urls →
  elements (getStatus_each P urls k l) !! (lister_next l + i) = Some (P, k + i).
Proof.
  revert k l i. induction urls as [|url urls IH]; intros k l i Hi; simpl in *;
    [lia|].
  destruct i as [|i].
  - destruct (getStatus_each_frame P urls (S k)
                {| facade_calls := facade_calls l ++ [Facade_getStatus url];
                   gathers := gathers l;
                   elements := <[lister_next l := (P, k)]> (elements l);
                   lister_next := S (lister_next l);
                   listed := listed l |}) as (_ & _ & _ & _ & He).
    rewrite He by (simpl; lia). simpl.
    rewrite Nat.add_0_r, lookup_insert_eq. do 2 f_equal. lia.
  - specialize (IH (S k)
                {| facade_calls := facade_calls l ++ [Facade_getStatus url];
                   gathers := gathers l;
                   elements := <[lister_next l := (P, k)]> (elements l);
                   lister_next := S (lister_next l);
                   listed := listed l |} i).
    simpl in IH.
    replace (lister_next l + S i) with (S (lister_next l + i)) by lia.
    replace (k + S i) with (S (k + i)) by lia.
    apply IH. lia.
Qed.

Section Gathering.

Variable StatusTexts : Z → option string.
Variable P : promise.
Variable first : promise.
Variable urls : list string.
Variable answer : nat → Z.

Lemma slots_of_nil : slots_of urls answer [] = replicate (length urls) None.
Proof.
  unfold slots_of. apply list_eq. intros i.
  rewrite list_lookup_fmap.
  destruct (decide (i < length urls)) as [Hi|Hi].
  - rewrite lookup_seq_lt, lookup_replicate_2 by done. simpl.
    by rewrite ?bool_decide_eq_false_2 by apply not_elem_of_nil.
  - rewrite lookup_seq_ge by lia.
    symmetry. apply lookup_replicate_None. lia.
Qed.

Lemma slots_of_insert done i :
  i < length urls →
  <[i := Some (answer i)]> (slots_of urls answer done)
  = slots_of urls answer (i :: done).
Proof.
  intros Hi. unfold slots_of. apply list_eq. intros j.
  rewrite !list_lookup_fmap.
  destruct (decide (j < length urls)) as [Hj|Hj].
  - destruct (decide (i = j)) as [<-|Hne].
    + rewrite list_lookup_insert_eq
        by (by rewrite length_fmap, length_seq).
      rewrite lookup_seq_lt by done. simpl.
      rewrite bool_decide_eq_true_2; [done | left].
    + rewrite list_lookup_insert_ne by done.
      rewrite list_lookup_fmap, lookup_seq_lt by done. simpl.
      rewrite (bool_decide_ext (j ∈ i :: done) (j ∈ done)); [done|].
      rewrite elem_of_cons. intuition congruence.
  - rewrite lookup_seq_ge by lia.
    rewrite list_lookup_insert_ne by lia.
    rewrite list_lookup_fmap, lookup_seq_ge by lia. done.
Qed.

Lemma slots_of_complete done :
  (∀ i, i < length urls → i ∈ done) →
  mapM id (slots_of urls answer done) = Some (answer <$> seq 0 (length urls)).
Proof.
  intros Hall. apply mapM_Some_2. unfold slots_of.
  apply Forall2_fmap, Forall2_same_length_lookup_2; [done|].
  intros i x y Hx Hy. simplify_eq.
  apply lookup_seq in Hx as [-> Hi]. simpl.
  rewrite bool_decide_eq_true_2; [done | by apply Hall].
Qed.

Lemma slots_of_incomplete done i :
  i < length urls → i ∉ done → mapM id (slots_of urls answer done) = None.
Proof.
  intros Hi Hout. apply mapM_None_2, Exists_exists.
  exists None. split; [|done].
  unfold slots_of. apply list_elem_of_fmap. exists i. split.
  - by rewrite bool_decide_eq_false_2.
  - apply elem_of_seq. lia.
Qed.

Lemma status_entries_answered :
  status_entries StatusTexts urls (answer <$> seq 0 (length urls))
  = answered StatusTexts urls answer.
Proof.
  unfold status_entries, answered. apply list_eq. intros i.
  rewrite !list_lookup_imap.
  destruct (urls !! i) as [url|] eqn:Hu; [|done]. simpl.
  apply lookup_lt_Some in Hu.
  rewrite list_lookup_fmap, lookup_seq_lt by done. done.
Qed.

Lemma slots_of_filled done statuses :
  mapM id (slots_of urls answer done) = Some statuses →
  ∀ i, i < length urls → i ∈ done.
Proof.
  intros Hm i Hi. destruct (decide (i ∈ done)) as [|Hout]; [done|].
  rewrite (slots_of_incomplete done i) in Hm by done. done.
Qed.

Lemma slots_of_missing done :
  mapM id (slots_of urls answer done) = None →
  ∃ i, i < length urls ∧ i ∉ done.
Proof.
  intros Hm. apply mapM_None_1, Exists_exists in Hm as (x & Hx & Hnone).
  unfold slots_of in Hx. apply list_elem_of_fmap in Hx as (i & -> & Hi).
  apply elem_of_seq in Hi. exists i. split; [lia|].
  simpl in Hnone. by case_bool_decide.
Qed.

Lemma gathering_step done l i :
  gathering_inv StatusTexts P first urls answer done l →
  i < length urls → i ∉ done →
  gathering_inv StatusTexts P first urls answer (i :: done)
    (lister_step StatusTexts l (Status_resolves (first + i) (answer i))).
Proof.
  intros [He Hg Hl] Hi Hout. unfold lister_step.
  rewrite (He i Hi Hout), Hg by eauto.
  unfold all_then. rewrite slots_of_insert by done.
  destruct (mapM id (slots_of urls answer (i :: done))) as [statuses|] eqn:Hm.
  - pose proof (slots_of_filled _ _ Hm) as Hall.
    rewrite slots_of_complete in Hm by done. injection Hm as <-.
    split; simpl.
    + intros j Hj Hjout. exfalso. by apply Hjout, Hall.
    + intros (j & Hj & Hjout). exfalso. by apply Hjout, Hall.
    + intros _. rewrite lookup_insert_eq. by rewrite status_entries_answered.
  - destruct (slots_of_missing _ Hm) as (j & Hj & Hjout).
    split; simpl.
    + intros j' Hj' Hjout'. rewrite not_elem_of_cons in Hjout'.
      rewrite lookup_delete_ne by lia. apply He; tauto.
    + intros _. apply lookup_insert_eq.
    + intros Hall. exfalso. by apply Hjout, Hall.
Qed.

Lemma gathering_run order done l :
  gathering_inv StatusTexts P first urls answer done l →
  NoDup order →
  (∀ i, i ∈ order → i < length urls ∧ i ∉ done) →
  gathering_inv StatusTexts P first urls answer (reverse order ++ done)
    (lister_run StatusTexts l
       ((λ i, Status_resolves (first + i) (answer i)) <$> order)).
Proof.
  revert done l. induction order as [|i order IH]; intros done l Hinv Hnd Hin.
  - done.
  - apply NoDup_cons in Hnd as [Hi Hnd].
    rewrite reverse_cons, <- app_assoc. simpl.
    apply IH; [|done|].
    + apply gathering_step; [done|..]; apply Hin; left.
    + intros j Hj. split; [apply Hin; by right|].
      rewrite not_elem_of_cons. split; [congruence|].
      apply Hin. by right.
Qed.

End Gathering.

Lemma facade_calls_all_then StatusTexts P urls slots l :
  facade_calls (all_then StatusTexts P urls slots l) = facade_calls l.
Proof. unfold all_then. by destruct (mapM id slots). Qed.

Lemma facade_calls_after_settlement StatusTexts l ev :
  ev ≠ App_getStatuses → (∀ P urls, ev ≠ List_resolves P urls) →
  facade_calls (lister_step StatusTexts l ev) = facade_calls l.
Proof.
  intros Hcall Hlist. destruct ev as [|P urls|P e|q status|q e]; try done.
  - by destruct (Hlist P urls).
  - simpl. by destruct (gathers l !! P) as [[|]|].
  - simpl. destruct (elements l !! q) as [[P index]|]; [|done].
    destruct (gathers l !! P) as [[|urls slots]|]; try done.
    unfold all_then. by destruct (mapM id _).
  - simpl. destruct (elements l !! q) as [[P index]|]; [|done].
    by destruct (gathers l !! P) as [[|urls slots]|].
Qed.

Lemma facade_calls_after_answers StatusTexts first answer order l :
  facade_calls
    (lister_run StatusTexts l
       ((λ i, Status_resolves (first + i) (answer i)) <$> order))
  = facade_calls l.
Proof.
  revert l. induction order as [|i order IH]; intros l; [done|].
  change (facade_calls
            (lister_run StatusTexts
               (lister_step StatusTexts l
                  (Status_resolves (first + i) (answer i)))
               ((λ i, Status_resolves (first + i) (answer i)) <$> order))
          = facade_calls l).
  rewrite IH. by apply facade_calls_after_settlement.
Qed.

Lemma list_then_gathering StatusTexts l urls answer :
  let P := lister_next l in
  let l2 := lister_run StatusTexts l [App_getStatuses; List_resolves P urls] in
  gathering_inv StatusTexts P (S P) urls answer [] l2 ∧
  facade_calls l2 = facade_calls l ++ Facade_list :: (Facade_getStatus <$> urls).
Proof.
  cbv zeta. unfold lister_run; cbn [foldl].
  set (l1 := lister_step StatusTexts l App_getStatuses).
  assert (gathers l1 !! lister_next l = Some ListThen) as Hg
    by apply lookup_insert_eq.
  assert (lister_step StatusTexts l1 (List_resolves (lister_next l) urls)
          = list_then StatusTexts (lister_next l) urls l1) as ->.
  { unfold lister_step. by rewrite Hg. }
  unfold list_then.
  destruct (getStatus_each_frame (lister_next l) urls 0 l1)
    as (Hgath & Hlisted & Hnext & Hcalls & _).
  pose proof (getStatus_each_elements (lister_next l) urls 0 l1) as Helem.
  set (l1' := getStatus_each (lister_next l) urls 0 l1) in *.
  split; [|rewrite facade_calls_all_then, Hcalls; simpl; by rewrite <- app_assoc].
  unfold all_then.
  rewrite <- (slots_of_nil urls answer).
  destruct (mapM id (slots_of urls answer [])) as [statuses|] eqn:Hm.
  - pose proof (slots_of_filled _ _ _ _ Hm) as Hall.
    rewrite slots_of_complete in Hm by done. injection Hm as <-.
    split; simpl.
    + intros i Hi _. apply Helem. done.
    + intros (i & Hi & Hout). exfalso. by apply Hout, Hall.
    + intros _. rewrite lookup_insert_eq.
      by rewrite status_entries_answered.
  - destruct (slots_of_missing _ _ _ Hm) as (j & Hj & Hjout).
    split; simpl.
    + intros i Hi _. apply Helem. done.
    + intros _. apply lookup_insert_eq.
    + intros Hall. exfalso. by apply Hjout, Hall.
Qed.

(** X15. [getStatuses()]: when [syncable.list()] answers [urls] and
    every [syncable.getStatus(url)] fulfils, in whatever order the
    answers arrive, the result lists the endpoints in the order of
    [urls], each with the text of its own status; the facade was asked
    for the list once and then once per endpoint, in that order.  An
    empty list gives an empty result at once. *)
Theorem getStatuses_lists_in_order
    (StatusTexts : Z → option string) (l : Lister) (urls : list string)
    (answer : nat → Z) (order : list nat) :
  order ≡ₚ seq 0 (length urls) →
  let P := lister_next l in
  let l' := lister_run StatusTexts l
              ([App_getStatuses; List_resolves P urls]
                 ++ ((λ i, Status_resolves (S P + i) (answer i)) <$> order)) in
  listed l' !! P =
    Some (Listed (imap (λ i url, {| entry_url := url;
                                    entry_status := StatusTexts (answer i) |})
                    urls)) ∧
  facade_calls l' =
    facade_calls l ++ Facade_list :: (Facade_getStatus <$> urls).
Proof.
  intros Hperm. cbv zeta.
  destruct (list_then_gathering StatusTexts l urls answer) as [Hinv Hcalls].
  unfold lister_run in *. rewrite foldl_app.
  set (l2 := foldl _ l [App_getStatuses; List_resolves (lister_next l) urls])
    in *.
  split.
  - assert (NoDup order) as Hnd.
    { rewrite Hperm. apply NoDup_seq. }
    assert (∀ i, i ∈ order → i < length urls ∧ i ∉ []) as Hin.
    { intros i Hi. rewrite Hperm in Hi. apply elem_of_seq in Hi.
      split; [lia | apply not_elem_of_nil]. }
    pose proof (gathering_run StatusTexts _ _ urls answer order [] l2
                  Hinv Hnd Hin) as Hfinal.
    apply (inv_listed _ _ _ _ _ _ _ Hfinal).
    intros i Hi. rewrite app_nil_r, elem_of_reverse, Hperm.
    apply elem_of_seq. lia.
  - fold (lister_run StatusTexts l2
            ((λ i, Status_resolves (S (lister_next l) + i) (answer i)) <$> order)).
    by rewrite facade_calls_after_answers.
Qed.


Lemma getStatuses_lists_in_order_witness :
  [1; 0] ≡ₚ seq 0 (length [db1; db2]) ∧
  listed (lister_run sample_texts lister_init
            [App_getStatuses; List_resolves 0 [db1; db2];
             Status_resolves 2 2; Status_resolves 1 0]) !! 0
  = Some (Listed [ {| entry_url := db1; entry_status := Some "OFFLINE" |};
                   {| entry_url := db2; entry_status := Some "ONLINE" |} ]).
Proof.
  assert ([1; 0] ≡ₚ seq 0 (length [db1; db2])) as Hperm by apply perm_swap.
  split; [exact Hperm|].
  exact (proj1 (getStatuses_lists_in_order sample_texts lister_init
                  [db1; db2] sample_answer [1; 0] Hperm)).
Defined.

Lemma settled_listing_is_final StatusTexts l ev (P : promise) :
  P < lister_next l → gathers l !! P = None →
  P < lister_next (lister_step StatusTexts l ev) ∧
  gathers (lister_step StatusTexts l ev) !! P = None ∧
  listed (lister_step StatusTexts l ev) !! P = listed l !! P.
Proof.
  intros Hlt Hnone.
  destruct ev as [|P' urls|P' e|q status|q e]; simpl.
  - rewrite lookup_insert_ne by lia. auto with lia.
  - destruct (gathers l !! P') as [[|]|] eqn:Hg; try done.
    assert (P' ≠ P) as Hne by congruence.
    unfold list_then, all_then.
    destruct (getStatus_each_frame P' urls 0 l) as (Hgath & Hlisted & Hnext & _).
    destruct (mapM id _); simpl; rewrite Hgath, Hlisted, Hnext.
    + rewrite lookup_delete_ne, lookup_insert_ne by done. auto with lia.
    + rewrite lookup_insert_ne by done. auto with lia.
  - destruct (gathers l !! P') as [[|]|] eqn:Hg; try done.
    assert (P' ≠ P) as Hne by congruence. simpl.
    by rewrite lookup_delete_ne, lookup_insert_ne by done.
  - destruct (elements l !! q) as [[P' index]|]; [|done].
    destruct (gathers l !! P') as [[|urls slots]|] eqn:Hg; try done.
    assert (P' ≠ P) as Hne by congruence.
    unfold all_then. destruct (mapM id _); simpl.
    + by rewrite lookup_delete_ne, lookup_insert_ne by done.
    + by rewrite lookup_insert_ne by done.
  - destruct (elements l !! q) as [[P' index]|]; [|done].
    destruct (gathers l !! P') as [[|urls slots]|] eqn:Hg; try done.
    assert (P' ≠ P) as Hne by congruence. simpl.
    by rewrite lookup_delete_ne, lookup_insert_ne by done.
Qed.

Lemma settled_listing_is_final_run StatusTexts evs l (P : promise) :
  P < lister_next l → gathers l !! P = None →
  listed (lister_run StatusTexts l evs) !! P = listed l !! P.
Proof.
  revert l. induction evs as [|ev evs IH]; intros l Hlt Hnone; [done|].
  destruct (settled_listing_is_final StatusTexts l ev P Hlt Hnone)
    as (Hlt' & Hnone' & Hsame).
  change (listed (lister_run StatusTexts (lister_step StatusTexts l ev) evs) !! P
          = listed l !! P).
  by rewrite IH.
Qed.

Lemma lister_next_after_status StatusTexts l (q : promise) status :
  lister_next (lister_step StatusTexts l (Status_resolves q status))
  = lister_next l.
Proof.
  simpl. destruct (elements l !! q) as [[P index]|]; [|done].
  destruct (gathers l !! P) as [[|urls slots]|]; try done.
  unfold all_then. by destruct (mapM id _).
Qed.

Lemma lister_next_after_answers StatusTexts first answer order l :
  lister_next
    (lister_run StatusTexts l
       ((λ i, Status_resolves (first + i) (answer i)) <$> order))
  = lister_next l.
Proof.
  revert l. induction order as [|i order IH]; intros l; [done|].
  change (lister_next
            (lister_run StatusTexts
               (lister_step StatusTexts l
                  (Status_resolves (first + i) (answer i)))
               ((λ i, Status_resolves (first + i) (answer i)) <$> order))
          = lister_next l).
  rewrite IH. apply lister_next_after_status.
Qed.

(** X16. [getStatuses()]: when one [syncable.getStatus(url)] rejects
    with [e] while another is still pending, the promise rejects with
    [e], and nothing that happens later, neither late answers nor
    further rejections, changes that. *)
Theorem getStatuses_rejects_with_first_failure
    (StatusTexts : Z → option string) (l : Lister) (urls : list string)
    (answer : nat → Z) (before : list nat) (i : nat) (e : error)
    (later : list lister_event) :
  NoDup before →
  (∀ j, j ∈ before → j < length urls ∧ j ≠ i) →
  i < length urls →
  let P := lister_next l in
  let l' := lister_run StatusTexts l
              ([App_getStatuses; List_resolves P urls]
                 ++ ((λ j, Status_resolves (S P + j) (answer j)) <$> before)
                 ++ [Status_rejects (S P + i) e] ++ later) in
  listed l' !! P = Some (ListingRejected e).
Proof.
  intros Hnd Hbefore Hi. cbv zeta.
  destruct (list_then_gathering StatusTexts l urls answer) as [Hinv Hcalls].
  unfold lister_run in *. rewrite !foldl_app.
  set (l2 := foldl _ l [App_getStatuses; List_resolves (lister_next l) urls])
    in *.
  assert (lister_next l < lister_next l2) as Hlt2.
  { subst l2. cbn [foldl].
    set (l1 := lister_step StatusTexts l App_getStatuses).
    assert (gathers l1 !! lister_next l = Some ListThen) as Hg
      by apply lookup_insert_eq.
    unfold lister_step at 1. rewrite Hg. unfold list_then, all_then.
    destruct (getStatus_each_frame (lister_next l) urls 0 l1)
      as (_ & _ & Hnext & _).
    destruct (mapM id _); simpl; rewrite Hnext; simpl; lia. }
  assert (∀ j, j ∈ before → j < length urls ∧ j ∉ []) as Hin.
  { intros j Hj. split; [by apply Hbefore | apply not_elem_of_nil]. }
  pose proof (gathering_run StatusTexts _ _ urls answer before [] l2
                Hinv Hnd Hin) as [He Hg _].
  pose proof (lister_next_after_answers StatusTexts (S (lister_next l))
                answer before l2) as Hnext3.
  unfold lister_run in *.
  set (l3 := foldl _ l2 _) in *.
  assert (i ∉ reverse before ++ []) as Hout.
  { rewrite app_nil_r, elem_of_reverse. intros Hin'.
    by destruct (Hbefore i Hin'). }
  fold (lister_run StatusTexts
          (foldl (lister_step StatusTexts) l3
             [Status_rejects (S (lister_next l) + i) e]) later).
  rewrite settled_listing_is_final_run.
  - cbn [foldl]. unfold lister_step.
    rewrite (He i Hi Hout), Hg by eauto. simpl. apply lookup_insert_eq.
  - cbn [foldl]. unfold lister_step.
    rewrite (He i Hi Hout), Hg by eauto. simpl. lia.
  - cbn [foldl]. unfold lister_step.
    rewrite (He i Hi Hout), Hg by eauto. simpl. apply lookup_delete_eq.
Qed.


Lemma getStatuses_rejects_with_first_failure_witness :
  NoDup [1] ∧
  listed (lister_run sample_texts lister_init
            [App_getStatuses; List_resolves 0 [db1; db2];
             Status_resolves 2 2; Status_rejects 1 (Error "gone");
             Status_rejects 2 (Error "late")]) !! 0
  = Some (ListingRejected (Error "gone")).
Proof.
  assert (NoDup [1]) as Hnd by (apply NoDup_singleton).
  assert (∀ j, j ∈ [1] → j < length [db1; db2] ∧ j ≠ 0) as Hbefore.
  { intros j Hj. apply list_elem_of_singleton in Hj as ->. simpl. lia. }
  assert (0 < length [db1; db2]) as Hi by (simpl; lia).
  split; [exact Hnd|].
  exact (getStatuses_rejects_with_first_failure sample_texts lister_init
           [db1; db2] sample_answer [1] 0 (Error "gone")
           [Status_rejects 2 (Error "late")] Hnd Hbefore Hi).
Defined.

(** X17. [getStatuses()]: when [syncable.list()] rejects with [e] the
    promise rejects with [e] for good, and the facade is not asked for
    any status. *)
Theorem getStatuses_list_failure
    (StatusTexts : Z → option string) (l : Lister) (e : error)
    (later : list lister_event) :
  let P := lister_next l in
  let l1 := lister_run StatusTexts l [App_getStatuses; List_rejects P e] in
  listed (lister_run StatusTexts l1 later) !! P = Some (ListingRejected e) ∧
  facade_calls l1 = facade_calls l ++ [Facade_list] ∧
  elements l1 = elements l.
Proof.
  cbv zeta. unfold lister_run at 2 3 4; cbn [foldl].
  set (l0 := lister_step StatusTexts l App_getStatuses).
  assert (gathers l0 !! lister_next l = Some ListThen) as Hg
    by apply lookup_insert_eq.
  unfold lister_step at 1 2 3. rewrite Hg. simpl.
  split; [|done].
  rewrite settled_listing_is_final_run; simpl.
  - apply lookup_insert_eq.
  - lia.
  - apply lookup_delete_eq.
Qed.

(** * The constructor *)

Lemma forEach_declare acc dbVersions :
  foldl (λ calls v, calls ++ declare_version v) acc dbVersions
  = acc ++ (dbVersions ≫= declare_version).
Proof.
  revert acc. induction dbVersions as [|v vs IH]; intros acc.
  - simpl. by rewrite app_nil_r.
  - rewrite bind_cons. simpl. rewrite IH. by rewrite <- app_assoc.
Qed.

Lemma declared_of_versions dbVersions :
  omap declared_version (dbVersions ≫= declare_version) = version <$> dbVersions ∧
  omap declared_stores (dbVersions ≫= declare_version) = stores <$> dbVersions ∧
  omap declared_upgrade (dbVersions ≫= declare_version) = omap upgrader dbVersions.
Proof.
  induction dbVersions as [|v vs (IH1 & IH2 & IH3)]; [done|].
  rewrite bind_cons, !omap_app, IH1, IH2, IH3.
  unfold declare_version. destruct (upgrader v) eqn:Hu; simpl; by rewrite ?Hu.
Qed.

Lemma length_declared dbVersions :
  length (dbVersions ≫= declare_version)
  = 2 * length dbVersions + length (omap upgrader dbVersions).
Proof.
  induction dbVersions as [|v vs IH]; [done|].
  rewrite bind_cons, length_app, IH.
  change (v :: vs) with ([v] ++ vs). rewrite omap_app, !length_app.
  unfold declare_version. cbn [omap list_omap length].
  destruct (upgrader v); simpl; lia.
Qed.

Lemma declare_version_calls (v : dbVersion) :
  declare_version v
  = Dexie_version (version v) :: Version_stores (stores v)
      :: match upgrader v with
         | Some f => [Version_upgrade f]
         | None => []
         end.
Proof. unfold declare_version. by destruct (upgrader v). Qed.

(** X18. The calls the constructor makes are exactly these, in this
    order: Dexie is created with the addons [observable], [syncable]
    and then the caller's; for every element of [dbVersions], in
    order, [version(n)], then [stores(s)], then [upgrade(f)] if and
    only if that element carries an upgrader [f]; then the sync
    protocol is registered under "sync_client_protocol" with the
    caller's [partialsThreshold]; then the [statusChanged] handler is
    installed.  So every version is declared once, and the upgrades
    called are those of the elements that have one, in order.  The new
    client has empty [options], [urls] and [statusChangeListeners]. *)
Theorem constructor_declares_each_version
    (dbName : string) (dbVersions : list dbVersion) (opts : SyncClientOptions) :
  let calls := (constructor dbName dbVersions opts).1 in
  calls
    = Dexie_new dbName (observable :: syncable :: default [] (addons opts))
        :: (dbVersions ≫=
              λ v, Dexie_version (version v) :: Version_stores (stores v)
                     :: match upgrader v with
                        | Some f => [Version_upgrade f]
                        | None => []
                        end)
        ++ [Syncable_registerSyncProtocol "sync_client_protocol"
              (partialsThreshold opts);
            Syncable_on "statusChanged"] ∧
  omap declared_version calls = version <$> dbVersions ∧
  omap declared_stores calls = stores <$> dbVersions ∧
  omap declared_upgrade calls = omap upgrader dbVersions ∧
  length calls
    = 3 + 2 * length dbVersions + length (omap upgrader dbVersions) ∧
  (constructor dbName dbVersions opts).2 = client init.
Proof.
  cbv zeta. unfold constructor. cbn [fst snd].
  rewrite forEach_declare.
  split.
  { simpl. f_equal. f_equal.
    induction dbVersions as [|v vs IH]; [done|].
    by rewrite !bind_cons, IH, declare_version_calls. }
  destruct (declared_of_versions dbVersions) as (H1 & H2 & H3).
  rewrite !omap_app, H1, H2, H3. simpl. rewrite !app_nil_r.
  repeat split.
  rewrite length_app, length_declared. simpl. lia.
Qed.

(** * What writes the options and what queries the oracle *)

Lemma options_after_step StatusTexts w ev E :
  options (client (step StatusTexts w ev)) !! E
  = match writes_options w ev E with
    | Some bag => Some bag
    | None => options (client w) !! E
    end.
Proof.
  step_cases StatusTexts w ev; try done.
  - rewrite bool_decide_eq_false_2; [done|]. intros [-> Hout]. done.
  - case_bool_decide as Hd.
    + destruct Hd as [-> _]. apply lookup_insert_eq.
    + rewrite lookup_insert_ne; [done|]. intros ->. apply Hd. done.
Qed.

Lemma isOnline_calls_after_step StatusTexts w ev :
  isOnline_calls (step StatusTexts w ev) = isOnline_calls w ++ queries w ev.
Proof.
  step_cases StatusTexts w ev; rewrite ?app_nil_r; try done.
  - by rewrite bool_decide_eq_true_2, app_nil_r.
  - by rewrite bool_decide_eq_false_2.
Qed.

(** X19. The options stored for an endpoint are written by one thing
    only: a [connect(E, opts)] call made while [E] is not in [urls],
    which replaces them by [Object.assign({}, opts, defaults)] whether
    or not that connect later succeeds.  After any trace the bag stored
    for [E] is the one of the latest such call; a [connect] on a
    tracked endpoint, [disconnect], [removeUrl], settlements and
    callbacks leave it as it is. *)
Theorem options_written_by_untracked_connect_only
    (StatusTexts : Z → option string) (evs : list event) (E : string) :
  options (client (run StatusTexts init evs)) !! E
  = stored_options StatusTexts init evs E None.
Proof.
  change None with (options (client init) !! E) at 1.
  generalize init as w. induction evs as [|ev evs IH]; intros w; [done|].
  change (run StatusTexts w (ev :: evs))
    with (run StatusTexts (step StatusTexts w ev) evs).
  rewrite IH. cbn [stored_options]. by rewrite options_after_step.
Qed.

(** X20. [isOnline] is asked once by every [connect(url)] call made
    while [url] is not in [urls], in call order, and by nothing else:
    a [connect] on a tracked endpoint does not ask, and neither does a
    reconnect started by a reachability callback. *)
Theorem oracle_is_queried_by_untracked_connect_only
    (StatusTexts : Z → option string) (evs : list event) :
  isOnline_calls (run StatusTexts init evs)
  = expected_queries StatusTexts init evs.
Proof.
  change (expected_queries StatusTexts init evs)
    with (isOnline_calls init ++ expected_queries StatusTexts init evs).
  generalize init as w. induction evs as [|ev evs IH]; intros w.
  - simpl. by rewrite app_nil_r.
  - change (run StatusTexts w (ev :: evs))
      with (run StatusTexts (step StatusTexts w ev) evs).
    rewrite IH, isOnline_calls_after_step. cbn [expected_queries].
    by rewrite <- app_assoc.
Qed.
